(** * voxelio.renderer: item icon batch renderer

    A shallow embedding of [src/render-items.ts] and [src/twoD-overrides.ts]
    together with the properties the specification states about them.

    Conventions of the embedding:
    - a JS [string] is a [string]; template literals are [+:+];
    - a JS [Set<string>] is an insertion-ordered, duplicate-free [list string]
      (iteration order of a JS Set is insertion order, and [[...out]] exposes it);
    - a JS object used as a dictionary ([idMap], [itemModels]) and the output
      directory are [gmap]s; a JS [Map] whose order is observable is a list
      of entries with distinct keys;
    - typed arrays are [list byte];
    - code that can throw returns a [Result]; code that also touches the
      disk or the console lives in the state-and-exception monad [M]. *)

From Stdlib Require Import ZArith QArith Qcanon Lia.
From Stdlib Require Import Strings.String Strings.Ascii Strings.Byte.
From Stdlib Require Import Floats.SpecFloat.
From stdpp Require Import base decidable option list gmap strings numbers.

Set Warnings "-register-all".

Local Open Scope string_scope.
Local Open Scope list_scope.

(** ** JavaScript string primitives *)

Module Js.

(** [s.startsWith(p)] *)
Fixpoint startsWith (p s : string) : bool :=
  match p with
  | EmptyString => true
  | String c p' =>
      match s with
      | EmptyString => false
      | String d s' => if Ascii.eqb c d then startsWith p' s' else false
      end
  end.

(** [s.slice(n)] for [0 <= n] *)
Fixpoint slice (n : nat) (s : string) : string :=
  match n with
  | O => s
  | S n' => match s with EmptyString => EmptyString | String _ s' => slice n' s' end
  end.

(** [s.endsWith(p)] *)
Definition endsWith (p s : string) : bool :=
  if decide (String.length p <= String.length s)%nat
  then String.eqb (slice (String.length s - String.length p) s) p
  else false.

(** Truthiness of a string: [Boolean(s)], [if (s)], [s ? a : b]. *)
Definition truthy (s : string) : bool :=
  match s with EmptyString => false | String _ _ => true end.

(** [arr.join(sep)] on an array of strings *)
Definition join (sep : string) (arr : list string) : string := String.concat sep arr.

(** [s.toLowerCase()] on the ASCII range *)
Definition lowerAscii (c : ascii) : ascii :=
  let n := nat_of_ascii c in
  if ((65 <=? n) && (n <=? 90))%nat then ascii_of_nat (n + 32) else c.

Fixpoint toLowerCase (s : string) : string :=
  match s with
  | EmptyString => EmptyString
  | String c s' => String (lowerAscii c) (toLowerCase s')
  end.

End Js.

(** ** JavaScript [Set<string>] *)

Module JsSet.

Definition t := list string.

Definition empty : t := [].

(** [s.add(x)]: appended at the end unless already present *)
Definition add (x : string) (s : t) : t :=
  if decide (x ∈ s) then s else s ++ [x].

(** [s.has(x)] *)
Definition has (x : string) (s : t) : bool := bool_decide (x ∈ s).

(** [for (const x of xs) s.add(x)] *)
Definition addAll (xs : list string) (s : t) : t :=
  fold_left (fun acc x => add x acc) xs s.

(** [new Set(xs)] *)
Definition ofList (xs : list string) : t := addAll xs empty.

End JsSet.

(** ** [twoD-overrides.ts] *)

Definition COLORS : list string :=
  ["white"; "light_gray"; "gray"; "black"; "brown"; "red"; "orange"; "yellow";
   "lime"; "green"; "cyan"; "light_blue"; "blue"; "purple"; "magenta"; "pink"].
Definition COPPER_BASES : list string :=
  ["copper_lantern"; "copper_chain"; "copper_door"; "copper_bars"; "copper_torch"].
Definition WAX_STATES : list string := [""; "waxed"].
Definition OXIDATION_STATES : list string := [""; "exposed"; "weathered"; "oxidized"].
Definition CORAL_TYPES : list string := ["tube"; "horn"; "fire"; "brain"; "bubble"].
Definition SAPLING_TYPES : list string :=
  ["spruce"; "oak"; "birch"; "pale_oak"; "cherry"; "dark_oak"; "jungle"; "acacia"; "mangrove"].
Definition SINGLE_IDS : list string :=
  ["warped_roots"; "weeping_vines"; "torchflower"; "vine"; "warped_fungus";
   "twisting_vines"; "tripwire_hook"; "tipped_arrow"; "torch"; "tinted_glass";
   "tall_grass"; "tall_dry_grass"; "sunflower"; "soul_torch"; "small_amethyst_bud";
   "short_grass"; "short_dry_grass"; "rose_bush"; "redstone_torch"; "red_tulip";
   "red_mushroom"; "recovery_compass"; "rail"; "powered_rail"; "poppy"; "pink_tulip";
   "peony"; "oxeye_daisy"; "orange_tulip"; "open_eyeblossom"; "medium_amethyst_bud";
   "lily_pad"; "lily_of_the_valley"; "lilac"; "lever"; "large_amethyst_bud";
   "large_fern"; "hanging_roots"; "glass_pane"; "frogspawn"; "fern";
   "enchanted_golden_apple"; "detector_rail"; "debug_stick"; "dandelion";
   "crimson_fungus"; "crimson_roots"; "cornflower"; "amethyst_cluster"; "allium";
   "activator_rail"; "azure_bluet"; "brown_mushroom"; "bush"; "cactus_flower";
   "clock"; "cobweb"; "compass"; "closed_eyeblossom"].

(** [interface TwoDRule { generate(): string[] }] *)
Class TwoDRule (R : Type) := generate : R -> list string.

Record SuffixRule := { suffix_bases : list string; suffix : string }.
Record PrefixComboRule := { combo_bases : list string; prefixGroups : list (list string) }.
Record CoralRule := { coral_types : list string }.
Record ListRule := { list_ids : list string }.

#[export] Instance SuffixRule_generate : TwoDRule SuffixRule :=
  fun r => map (fun b => b +:+ "_" +:+ suffix r) (suffix_bases r).

(** The leaf of [recurse]: [tokens.filter(Boolean).join('_')], then
    [prefix ? `${prefix}_${base}` : base]. *)
Definition comboId (base : string) (tokens : list string) : string :=
  let nonEmpty := List.filter Js.truthy tokens in
  let prefix := Js.join "_" nonEmpty in
  if Js.truthy prefix then prefix +:+ "_" +:+ base else base.

(** The closure [recurse(idx, tokens)]; [rest] is [prefixGroups.slice(idx)],
    empty exactly when [idx === prefixGroups.length].  The set [out] it
    mutates is threaded through. *)
Fixpoint recurse (base : string) (rest : list (list string)) (tokens : list string)
    (out : JsSet.t) : JsSet.t :=
  match rest with
  | [] => JsSet.add (comboId base tokens) out
  | group :: rest' =>
      fold_left (fun acc p => recurse base rest' (tokens ++ [p]) acc) group out
  end.

#[export] Instance PrefixComboRule_generate : TwoDRule PrefixComboRule :=
  fun r =>
    fold_left (fun out base => recurse base (prefixGroups r) [] out)
              (combo_bases r) JsSet.empty.

#[export] Instance CoralRule_generate : TwoDRule CoralRule :=
  fun r =>
    flat_map (fun t => [t +:+ "_coral"; t +:+ "_coral_fan";
                        "dead_" +:+ t +:+ "_coral"; "dead_" +:+ t +:+ "_coral_fan"])
             (coral_types r).

#[export] Instance ListRule_generate : TwoDRule ListRule := fun r => list_ids r.

(** An element of the array [rules: TwoDRule[]]. *)
Inductive Rule : Type :=
  | mkRule {R : Type} `{TwoDRule R} (r : R).

Definition ruleGenerate (r : Rule) : list string :=
  match r with mkRule r' => generate r' end.

Definition hardcodedRules : list Rule :=
  [ mkRule {| suffix_bases := COLORS; suffix := "stained_glass_pane" |};
    mkRule {| combo_bases := COPPER_BASES; prefixGroups := [WAX_STATES; OXIDATION_STATES] |};
    mkRule {| coral_types := CORAL_TYPES |};
    mkRule {| suffix_bases := SAPLING_TYPES; suffix := "sapling" |};
    mkRule {| list_ids := SINGLE_IDS |} ].

Definition getHardcodedTwoDItemIds : JsSet.t :=
  fold_left (fun out rule => JsSet.addAll (ruleGenerate rule) out)
            hardcodedRules JsSet.empty.

(** ** [render-items.ts]: classification *)

Definition RENDER_SIZE : nat := 128.

(** [fetchTwoDItemIds], as a function of the fetched texture registry. *)
Definition fetchTwoDItemIds (textures : list string) : JsSet.t :=
  fold_left
    (fun twoD tex =>
       if Js.startsWith "item/" tex then
         let id := Js.slice (String.length "item/") tex in
         if Js.truthy id then JsSet.add id twoD else twoD
       else twoD)
    textures JsSet.empty.

(** [new Set<string>([...detectedTwoDItemIds, ...getHardcodedTwoDItemIds()])] *)
Definition twoDItemIds (detected : JsSet.t) : JsSet.t :=
  JsSet.ofList (detected ++ getHardcodedTwoDItemIds).

(** [twoDItemIds.has(id) ? 16 : RENDER_SIZE] *)
Definition renderSize (ids : JsSet.t) (id : string) : nat :=
  if JsSet.has id ids then 16%nat else RENDER_SIZE.

(** ** [render-items.ts]: texture atlas *)

(** A UV rectangle [[u0, v0, u1, v1]].  Atlas coordinates are integers and
    the canvas sides are powers of two, so each quotient is an exact
    rational. *)
Definition UV : Type := Qc * Qc * Qc * Qc.

Definition numDiv (a b : Z) : Qc := (Qc_of_Z a / Qc_of_Z b)%Qc.

(** Modelled from the spec: [upperPowerOfTwo] is imported from the rendering
    library and is not part of this repository; the spec describes its result
    as the smallest power of two that is at least its argument. *)
Definition upperPowerOfTwo (x : Z) : Z := 2 ^ Z.log2_up x.

(** Modelled from the spec: [Identifier.create(rawId).toString()] and
    [Identifier.parse(`minecraft:${id}`).toString()] come from the same
    library; an identifier's canonical string is [namespace:path], and the
    default namespace is the one [main] spells out, [minecraft]. *)
Definition canonicalId (path : string) : string := "minecraft:" +:+ path.

(** The [width] and [height] of the decoded atlas image. *)
Record Image := { width : Z; height : Z }.

Definition RawUV : Type := Z * Z * Z * Z.

(** The right-hand side of the assignment in the loop of [loadBlockAtlas]. *)
Definition atlasUV (w h : Z) (rawId : string) (tuple : RawUV) : UV :=
  let '(u, v, du, dv) := tuple in
  let dv2 := if negb (du =? dv)%Z && Js.startsWith "block/" rawId then du else dv in
  (numDiv u w, numDiv v h, numDiv (u + du) w, numDiv (v + dv2) h).

(** [loadBlockAtlas]: the [idMap] handed to [TextureAtlas];
    [textures] is [Object.entries(textures)]. *)
Definition loadBlockAtlas (image : Image) (textures : list (string * RawUV))
    : gmap string UV :=
  let w := upperPowerOfTwo (width image) in
  let h := upperPowerOfTwo (height image) in
  fold_left
    (fun idMap entry =>
       let '(rawId, tuple) := entry in
       <[canonicalId rawId := atlasUV w h rawId tuple]> idMap)
    textures ∅.

(** ** [render-items.ts]: item components *)

(** A JS number is an IEEE 754 double. *)
Definition Number : Type := spec_float.

(** [Number.isInteger(x)] *)
Definition isInteger (x : Number) : bool :=
  match x with
  | S754_zero _ => true
  | S754_infinity _ => false
  | S754_nan => false
  | S754_finite _ m e =>
      if (0 <=? e)%Z then true else (Z.pos m mod 2 ^ (- e) =? 0)%Z
  end.

(** The double holding the integer [z]. *)
Definition numberOfZ (z : Z) : Number :=
  match z with
  | Z0 => S754_zero false
  | Zpos p => S754_finite false p 0
  | Zneg p => S754_finite true p 0
  end.

(** A value of type [unknown]. *)
Inductive JsValue : Type :=
  | JString (s : string)
  | JNumber (x : Number)
  | JBoolean (b : bool)
  | JArray (items : list JsValue)
  | JObject (entries : list (string * JsValue))  (* [Object.entries(value)] *)
  | JNull
  | JUndefined
  | JOther.  (* function, symbol, bigint *)

Inductive NbtTag : Type :=
  | NbtString (s : string)
  | NbtInt (x : Number)
  | NbtDouble (x : Number)
  | NbtByte (b : Z)
  | NbtList (items : list NbtTag)
  | NbtCompound (properties : list (string * NbtTag)).

(** Modelled from the spec: the constructor [new NbtByte(value: boolean)]
    belongs to the tag library; a boolean becomes the byte 1 or 0. *)
Definition nbtByteOfBool (b : bool) : NbtTag := NbtByte (if b then 1 else 0).

(** [m.set(k, v)] on a JS [Map]: a present key keeps its position. *)
Fixpoint mapSet {V : Type} (k : string) (v : V) (m : list (string * V)) : list (string * V) :=
  match m with
  | [] => [(k, v)]
  | (k', v') :: m' => if decide (k = k') then (k, v) :: m' else (k', v') :: mapSet k v m'
  end.

(** [new Map(entries)] *)
Definition mapOfEntries {V : Type} (entries : list (string * V)) : list (string * V) :=
  fold_left (fun m kv => mapSet kv.1 kv.2 m) entries [].

Fixpoint jsonToNbt (value : JsValue) : NbtTag :=
  match value with
  | JString s => NbtString s
  | JNumber x => if isInteger x then NbtInt x else NbtDouble x
  | JBoolean b => nbtByteOfBool b
  | JArray items => NbtList (map jsonToNbt items)
  | JObject entries =>
      NbtCompound (mapOfEntries (map (fun kv => (fst kv, jsonToNbt (snd kv))) entries))
  | JNull | JUndefined | JOther => NbtByte 0
  end.

(** ** Exceptions *)

Inductive Error : Type :=
  | RangeError                 (* typed-array offset out of bounds *)
  | ENOENT (path : string)     (* no such file or directory *)
  | EIO (path : string)        (* a write to the file system failed *)
  | RenderError (msg : string) (* thrown by the rendering collaborator *).

Inductive Result (A : Type) : Type :=
  | Ok (a : A)
  | Throw (e : Error).
Arguments Ok {A} a.
Arguments Throw {A} e.

#[export] Instance Result_ret : MRet Result := @Ok.
#[export] Instance Result_bind : MBind Result :=
  fun A B f r => match r with Ok a => f a | Throw e => Throw e end.

(** [for (const x of xs) { acc = body(acc, x) }] where [body] may throw *)
Fixpoint foldResult {A S : Type} (body : S -> A -> Result S) (xs : list A) (acc : S)
    : Result S :=
  match xs with
  | [] => Ok acc
  | x :: xs' => acc' ← body acc x; foldResult body xs' acc'
  end.

(** ** [render-items.ts]: vertical flip *)

(** [data.subarray(begin, end)] for [0 <= begin]; both ends are clamped. *)
Definition subarray (data : list byte) (begin end_ : nat) : list byte :=
  take (end_ - begin) (drop begin data).

(** [target.set(source, offset)]: a [RangeError] when the source does not fit. *)
Definition typedArraySet (target source : list byte) (offset : nat) : Result (list byte) :=
  if decide (offset + length source <= length target)%nat
  then Ok (take offset target ++ source ++ drop (offset + length source) target)
  else Throw RangeError.

Definition flipYAxis (data : list byte) (width height : nat) : Result (list byte) :=
  let bytesPerRow := (width * 4)%nat in
  let result := replicate (length data) x00 in
  foldResult
    (fun result row =>
       let srcStart := (row * bytesPerRow)%nat in
       let destStart := ((height - row - 1) * bytesPerRow)%nat in
       typedArraySet result (subarray data srcStart (srcStart + bytesPerRow)) destStart)
    (seq 0 height) result.

(** ** [render-items.ts]: the render loop *)

Inductive LogLine : Type :=
  | SkippingNoModel (id : string)                     (* Skipping id: no item model *)
  | SkippingExists (id : string)                      (* Skipping id: output exists *)
  | Rendered (id : string) (size : nat) (path : string)
  | FailedToRender (id : string) (e : Error)          (* console.warn *)
  | Hardcoded (path : string).

(** What a run can observe and change: the files on disk and the console. *)
Record World := { files : gmap string (list byte); console : list LogLine }.

(** A computation that reads and writes the world and may throw. *)
Definition M (A : Type) : Type := World -> Result A * World.

#[export] Instance M_ret : MRet M := fun A a w => (Ok a, w).
#[export] Instance M_bind : MBind M :=
  fun A B f m w => match m w with (Ok a, w') => f a w' | (Throw e, w') => (Throw e, w') end.

(** [try { body } catch (e) { handler(e) }] *)
Definition tryCatch {A : Type} (body : M A) (handler : Error -> M A) : M A :=
  fun w => match body w with (Ok a, w') => (Ok a, w') | (Throw e, w') => handler e w' end.

Definition liftResult {A : Type} (r : Result A) : M A := fun w => (r, w).

(** [console.log] / [console.warn] *)
Definition consoleLog (line : LogLine) : M unit :=
  fun w => (Ok (), {| files := files w; console := console w ++ [line] |}).

(** [for (const x of xs) { await body(x) }] *)
Fixpoint forEach {A : Type} (body : A -> M unit) (xs : list A) : M unit :=
  match xs with
  | [] => mret ()
  | x :: xs' => _ ← body x; forEach body xs'
  end.

(** An opaque parsed item model, [ItemModel.fromJson(definition.model)]. *)
Inductive ItemModel : Type := ItemModelFromJson (model : JsValue).

(** An entry of [readdir(dir, { withFileTypes: true })], with the bytes
    [copyFile] would copy. *)
Record Dirent := { name : string; isFile : bool; contents : list byte }.

(** The resource graph and the collaborators outside this repository. *)
Record Env := {
  (** [ResourceManager.itemModels], keyed by canonical identifier *)
  itemModels : gmap string ItemModel;
  (** the rendering collaborator up to [gl.readPixels]: the bottom-to-top
      RGBA rows of the drawn frame, or what it throws *)
  drawItem : string -> nat -> Result (list byte);
  (** [canvas.toBuffer('image/png')] on a [size] x [size] image *)
  encodePng : nat -> list byte -> Result (list byte);
  (** the paths at which [writeFile] / [copyFile] fail *)
  writeFails : string -> bool;
  (** [path.resolve(dirname, '..', 'output')] *)
  outputDir : string;
}.

(** [path.join(dir, file)] for a plain file name *)
Definition pathJoin (dir file : string) : string := dir +:+ "/" +:+ file.

(** [await access(path)]: throws unless the file exists *)
Definition access (path : string) : M unit :=
  fun w => match files w !! path with
           | Some _ => (Ok (), w)
           | None => (Throw (ENOENT path), w)
           end.

(** [await writeFile(path, data)], also the write half of [copyFile] *)
Definition writeFile (env : Env) (path : string) (data : list byte) : M unit :=
  fun w => if writeFails env path then (Throw (EIO path), w)
           else (Ok (), {| files := <[path := data]> (files w); console := console w |}).

(** [resources.getItemModel(Identifier.parse(`minecraft:${id}`))] *)
Definition getItemModel (env : Env) (id : string) : option ItemModel :=
  itemModels env !! canonicalId id.

(** [renderItemToPng]: [pixels] is the [size * size * 4] buffer that
    [gl.readPixels] fills; a throw of the collaborator, of the flip or of the
    encoder propagates. *)
Definition renderItemToPng (env : Env) (id : string) (size : nat) : Result (list byte) :=
  raw ← drawItem env id size;
  let pixels := resize (size * size * 4) x00 raw in
  flipped ← flipYAxis pixels size size;
  encodePng env size flipped.

(** The body of the [for (const id of availableIds)] loop in [main]. *)
Definition renderCandidate (env : Env) (twoD : JsSet.t) (id : string) : M unit :=
  match getItemModel env id with
  | None => consoleLog (SkippingNoModel id)
  | Some _ =>
      tryCatch
        (let outPath := pathJoin (outputDir env) (id +:+ ".png") in
         skipped ← tryCatch
                     (_ ← access outPath;
                      _ ← consoleLog (SkippingExists id);
                      mret true)
                     (fun _ => mret false);
         if (skipped : bool) then mret ()
         else
           let size := renderSize twoD id in
           png ← liftResult (renderItemToPng env id size);
           _ ← writeFile env outPath png;
           consoleLog (Rendered id size outPath))
        (fun e => consoleLog (FailedToRender id e))
  end.

(** [await readdir(sourceDir, { withFileTypes: true })]; the directory is
    [None] when it does not exist. *)
Definition readdir (sourceDir : option (list Dirent)) : M (list Dirent) :=
  fun w => match sourceDir with
           | Some entries => (Ok entries, w)
           | None => (Throw (ENOENT "hardcoded"), w)
           end.

(** [mergeHardcodedIcons]; [sourceDir] is [None] when the directory is missing. *)
Definition mergeHardcodedIcons (env : Env) (sourceDir : option (list Dirent)) : M unit :=
  tryCatch
    (entries ← readdir sourceDir;
     forEach
       (fun entry =>
          if isFile entry && Js.endsWith ".png" (Js.toLowerCase (name entry)) then
            let dest := pathJoin (outputDir env) (name entry) in
            _ ← writeFile env dest (contents entry);
            consoleLog (Hardcoded dest)
          else mret ())
       entries)
    (fun _ => mret ()).

(** [main], from the point where the startup fetches have resolved and the
    output directory exists: [textures] is the texture registry,
    [availableIds] the item registry, [sourceDir] the [hardcoded] directory. *)
Definition main (env : Env) (textures availableIds : list string)
    (sourceDir : option (list Dirent)) : M unit :=
  let detectedTwoDItemIds := fetchTwoDItemIds textures in
  let twoD := twoDItemIds detectedTwoDItemIds in
  _ ← forEach (renderCandidate env twoD) availableIds;
  mergeHardcodedIcons env sourceDir.

(** ** [render-items.ts]: item component ingestion and lookup *)

(** [m.get(k)] on a JS [Map] *)
Fixpoint mapGet {V : Type} (k : string) (m : list (string * V)) : option V :=
  match m with
  | [] => None
  | (k', v) :: m' => if decide (k = k') then Some v else mapGet k m'
  end.

(** One value of the fetched component summary, as its declared type has
    it: a record from component id to value, or an array of
    [{ type, value }] records; [components ?? {}] also lets a nullish value
    through. *)
Inductive ComponentsJson : Type :=
  | ComponentsRecord (entries : list (string * JsValue))  (* [Object.entries(components)] *)
  | ComponentsArray (items : list (string * JsValue))     (* [(entry.type, entry.value)] in order *)
  | ComponentsNullish.

(** [fetchItemComponents], as a function of the fetched JSON;
    [data] is [Object.entries(data)]. *)
Definition fetchItemComponents (data : list (string * ComponentsJson))
    : list (string * list (string * JsValue)) :=
  fold_left
    (fun result kc =>
       let base :=
         match kc.2 with
         | ComponentsArray items =>
             fold_left (fun base entry => mapSet entry.1 entry.2 base) items []
         | ComponentsRecord entries =>
             fold_left (fun base cv => mapSet cv.1 cv.2 base) entries []
         | ComponentsNullish => []
         end in
       mapSet ("minecraft:" +:+ kc.1) base result)
    data [].

Definition convertItemComponents (source : list (string * list (string * JsValue)))
    : list (string * list (string * NbtTag)) :=
  fold_left
    (fun out ic =>
       let mapped :=
         fold_left (fun mapped cv => mapSet cv.1 (jsonToNbt cv.2) mapped) ic.2 [] in
       mapSet ic.1 mapped out)
    source [].

(** [ResourceManager.getItemComponents]; [id] is [id.toString()]. *)
Definition getItemComponents (itemComponents : list (string * list (string * NbtTag)))
    (id : string) : list (string * NbtTag) :=
  match mapGet id itemComponents with
  | Some components => components
  | None => []
  end.

(** ** [render-items.ts]: item models *)

(** [typeof value === 'object' && value !== null]; an array is an object too. *)
Definition isRecord (value : JsValue) : bool :=
  match value with
  | JObject _ | JArray _ => true
  | _ => false
  end.

(** [value.model] on a value that passed [isRecord]: the property of an
    object, [undefined] on an array. *)
Definition modelOf (value : JsValue) : JsValue :=
  match value with
  | JObject entries =>
      match mapGet "model" entries with
      | Some model => model
      | None => JUndefined
      end
  | _ => JUndefined
  end.

(** [loadItemModels]: the [itemModels] record after the loop;
    [definitions] is [definitions.entries()]. *)
Definition loadItemModels (definitions : list (string * JsValue)) : gmap string ItemModel :=
  fold_left
    (fun itemModels entry =>
       let '(id, definition) := entry in
       if isRecord definition && isRecord (modelOf definition)
       then <[canonicalId id := ItemModelFromJson (modelOf definition)]> itemModels
       else itemModels)
    definitions ∅.

(** ** The specification's own words, for comparison with the code *)

(** One token per group, in group order: the Cartesian product across all groups. *)
Fixpoint cartesian (groups : list (list string)) : list (list string) :=
  match groups with
  | [] => [[]]
  | group :: groups' => flat_map (fun p => map (cons p) (cartesian groups')) group
  end.

(** The id for one choice of tokens: the non-empty tokens joined with [_] and
    prepended to the base, or the bare base when every token is empty. *)
Definition specComboId (base : string) (tokens : list string) : string :=
  if forallb (fun t => String.eqb t "") tokens then base
  else Js.join "_" (List.filter (fun t => negb (String.eqb t "")) tokens) +:+ "_" +:+ base.

(** Every base with every element of the product. *)
Definition specPrefixCombination (bases : list string) (groups : list (list string))
    : list string :=
  flat_map (fun base => map (specComboId base) (cartesian groups)) bases.

(** A texture path that lives directly under [prefix]: the prefix followed by
    a non-empty name with no further [/]. *)
Definition directlyUnder (prefix tex : string) : Prop :=
  exists leaf, tex = prefix +:+ leaf /\ leaf <> "" /\ "/"%char ∉ list_ascii_of_string leaf.

(** Row [r] of a buffer of [w] RGBA pixels per row: a contiguous block of
    [4 * w] bytes. *)
Definition pixelRow (w : nat) (buf : list byte) (r : nat) : list byte :=
  take (w * 4) (drop (r * (w * 4)) buf).

(** A buffer cut into [h] consecutive rows of [n] bytes. *)
Fixpoint rowsOf (n h : nat) (buf : list byte) : list (list byte) :=
  match h with
  | O => []
  | S h' => take n buf :: rowsOf n h' (drop n buf)
  end.

(** The vertical extent the atlas uses for an entry: the horizontal extent
    for a non-square [block/] texture, the recorded height otherwise. *)
Definition effectiveDv (rawId : string) (du dv : Z) : Z :=
  if Js.startsWith "block/" rawId && negb (du =? dv)%Z then du else dv.

(** A raw entry whose rectangle is non-empty and lies on the [w] x [h] canvas. *)
Definition entryOnCanvas (w h : Z) (rawId : string) (tuple : RawUV) : Prop :=
  let '(u, v, du, dv) := tuple in
  (0 <= u /\ 0 < du /\ u + du <= w /\
   0 <= v /\ 0 < effectiveDv rawId du dv /\ v + effectiveDv rawId du dv <= h)%Z.

(** The terminal outcomes of the per-id state machine. *)
Inductive Outcome : Type := SKIPPED_NO_MODEL | SKIPPED_EXISTS | SUCCEEDED | FAILED.

(** The outcome a console line reports, and for which id. *)
Definition outcomeOf (line : LogLine) : option (string * Outcome) :=
  match line with
  | SkippingNoModel id => Some (id, SKIPPED_NO_MODEL)
  | SkippingExists id => Some (id, SKIPPED_EXISTS)
  | Rendered id _ _ => Some (id, SUCCEEDED)
  | FailedToRender id _ => Some (id, FAILED)
  | Hardcoded _ => None
  end.

(** The computed output path of an id. *)
Definition outputPath (env : Env) (id : string) : string :=
  pathJoin (outputDir env) (id +:+ ".png").

(** The state machine of the specification for one candidate, on the files
    present when its turn comes: the outcome and the files afterwards. *)
Definition candidateOutcome (env : Env) (twoD : JsSet.t) (fs : gmap string (list byte))
    (id : string) : Outcome * gmap string (list byte) :=
  match getItemModel env id with
  | None => (SKIPPED_NO_MODEL, fs)
  | Some _ =>
      match fs !! outputPath env id with
      | Some _ => (SKIPPED_EXISTS, fs)
      | None =>
          match renderItemToPng env id (renderSize twoD id) with
          | Throw _ => (FAILED, fs)
          | Ok png =>
              if writeFails env (outputPath env id) then (FAILED, fs)
              else (SUCCEEDED, <[outputPath env id := png]> fs)
          end
      end
  end.

(** The state machine run over the registry, in registry order. *)
Fixpoint batchOutcomes (env : Env) (twoD : JsSet.t) (fs : gmap string (list byte))
    (ids : list string) : list (string * Outcome) :=
  match ids with
  | [] => []
  | id :: ids' =>
      (id, (candidateOutcome env twoD fs id).1)
        :: batchOutcomes env twoD (candidateOutcome env twoD fs id).2 ids'
  end.

(** The bounds a UV rectangle is meant to satisfy. *)
Definition uvWellFormed (uv : UV) : Prop :=
  let '(u0, v0, u1, v1) := uv in
  (0 <= u0 /\ u0 < u1 /\ u1 <= 1 /\ 0 <= v0 /\ v0 < v1 /\ v1 <= 1)%Qc.

(** The files after the state machine has run over the registry. *)
Fixpoint batchFiles (env : Env) (twoD : JsSet.t) (fs : gmap string (list byte))
    (ids : list string) : gmap string (list byte) :=
  match ids with
  | [] => fs
  | id :: ids' => batchFiles env twoD (candidateOutcome env twoD fs id).2 ids'
  end.


(** An entry the merger copies: a regular file whose lower-cased name ends in [.png]. *)
Definition isPngFile (entry : Dirent) : bool :=
  isFile entry && Js.endsWith ".png" (Js.toLowerCase (name entry)).

(** The copies the merger carries out, in order: those before the first
    copy that fails. *)
Fixpoint copiesDone (env : Env) (entries : list Dirent) : list (string * list byte) :=
  match entries with
  | [] => []
  | entry :: entries' =>
      if isPngFile entry then
        if writeFails env (pathJoin (outputDir env) (name entry)) then []
        else (pathJoin (outputDir env) (name entry), contents entry)
               :: copiesDone env entries'
      else copiesDone env entries'
  end.

(** Writing a sequence of files, in order. *)
Definition writeAll (copies : list (string * list byte)) (fs : gmap string (list byte))
    : gmap string (list byte) :=
  fold_left (fun fs pc => <[pc.1 := pc.2]> fs) copies fs.

(** The raw entries of one component value, in the order they are set. *)
Definition rawComponents (components : ComponentsJson) : list (string * JsValue) :=
  match components with
  | ComponentsRecord entries => entries
  | ComponentsArray items => items
  | ComponentsNullish => []
  end.

(** A tag tree as the converter builds it: bytes are 0 or 1, integer tags
    hold integral numbers, double tags hold the others. *)
Fixpoint tagShape (tag : NbtTag) : bool :=
  match tag with
  | NbtString _ => true
  | NbtInt x => isInteger x
  | NbtDouble x => negb (isInteger x)
  | NbtByte b => (b =? 0)%Z || (b =? 1)%Z
  | NbtList items => forallb tagShape items
  | NbtCompound properties => forallb (fun kv => tagShape (snd kv)) properties
  end.

(** ** A small run, used to exercise the statements below *)

Module Sample.

Definition textures : list string := ["item/stick"; "item/apple"; "block/stone"].

Definition ids : list string := ["air"; "stick"; "bow"; "apple"].

(** [stick], [bow] and [apple] have item models; drawing [bow] throws. *)
Definition env : Env :=
  {| itemModels :=
       <["minecraft:stick" := ItemModelFromJson JNull]>
         (<["minecraft:bow" := ItemModelFromJson JNull]>
            (<["minecraft:apple" := ItemModelFromJson JNull]> ∅));
     drawItem := fun id size =>
       if String.eqb id "bow" then Throw (RenderError "unsupported special model")
       else Ok (replicate (size * size * 4) xff);
     encodePng := fun _ pixels => Ok (take 4 pixels);
     writeFails := fun _ => false;
     outputDir := "output" |}.

(** [output/apple.png] is left over from an earlier run. *)
Definition world : World :=
  {| files := <["output/apple.png" := [x89; x50; x4e; x47]]> ∅; console := [] |}.

End Sample.

(** * Properties *)

(** ** Sets *)

Section JsSetFacts.

Lemma elem_of_add (x y : string) (s : JsSet.t) : x ∈ JsSet.add y s <-> x = y \/ x ∈ s.
Proof.
  unfold JsSet.add. destruct (decide (y ∈ s)) as [Hy|Hy].
  - split; [by right | intros [-> | ?]; done].
  - rewrite elem_of_app, list_elem_of_singleton. tauto.
Qed.

Lemma NoDup_add (y : string) (s : JsSet.t) : NoDup s -> NoDup (JsSet.add y s).
Proof.
  intros Hs. unfold JsSet.add. destruct (decide (y ∈ s)) as [Hy|Hy]; [done|].
  apply list.NoDup_app. split; [done|]. split.
  - intros x Hx Hx'. apply list_elem_of_singleton in Hx'. by subst.
  - apply NoDup_singleton.
Qed.

Lemma addAll_app (xs ys : list string) (s : JsSet.t) :
  JsSet.addAll (xs ++ ys) s = JsSet.addAll ys (JsSet.addAll xs s).
Proof. unfold JsSet.addAll. apply fold_left_app. Qed.

Lemma elem_of_addAll (x : string) (xs : list string) (s : JsSet.t) :
  x ∈ JsSet.addAll xs s <-> x ∈ xs \/ x ∈ s.
Proof.
  revert s. induction xs as [|y xs IH]; intros s; simpl.
  - split; [by right | intros [H|H]; [by apply elem_of_nil in H | done]].
  - change (x ∈ JsSet.addAll xs (JsSet.add y s) <-> x ∈ y :: xs \/ x ∈ s).
    rewrite IH, elem_of_add, elem_of_cons. tauto.
Qed.

Lemma NoDup_addAll (xs : list string) (s : JsSet.t) : NoDup s -> NoDup (JsSet.addAll xs s).
Proof.
  revert s. induction xs as [|y xs IH]; intros s Hs; simpl; [done|].
  apply IH. by apply NoDup_add.
Qed.

Lemma elem_of_ofList (x : string) (xs : list string) : x ∈ JsSet.ofList xs <-> x ∈ xs.
Proof.
  unfold JsSet.ofList. rewrite elem_of_addAll. unfold JsSet.empty.
  split; [intros [H|H]; [done | by apply elem_of_nil in H] | by left].
Qed.

Lemma NoDup_ofList (xs : list string) : NoDup (JsSet.ofList xs).
Proof. apply NoDup_addAll. apply NoDup_nil_2. Qed.

Lemma has_true (x : string) (s : JsSet.t) : JsSet.has x s = true <-> x ∈ s.
Proof. unfold JsSet.has. apply bool_decide_eq_true. Qed.

End JsSetFacts.

(** ** Classification rules *)

Section PrefixCombo.

Lemma truthy_eqb (t : string) : Js.truthy t = negb (String.eqb t "").
Proof. by destruct t. Qed.

Lemma truthy_join_filter (sep : string) (tokens : list string) :
  Js.truthy (Js.join sep (List.filter Js.truthy tokens)) = existsb Js.truthy tokens.
Proof.
  induction tokens as [|t tokens IH]; [done|].
  simpl. destruct t as [|c t]; simpl; [exact IH|].
  unfold Js.join. simpl. by destruct (List.filter Js.truthy tokens).
Qed.

Lemma forallb_empty_existsb (tokens : list string) :
  forallb (fun t => String.eqb t "") tokens = negb (existsb Js.truthy tokens).
Proof.
  induction tokens as [|t tokens IH]; [done|].
  simpl. rewrite IH. by destruct t.
Qed.

Lemma comboId_spec (base : string) (tokens : list string) :
  comboId base tokens = specComboId base tokens.
Proof.
  unfold comboId, specComboId.
  rewrite truthy_join_filter, forallb_empty_existsb.
  destruct (existsb Js.truthy tokens); simpl; [|done].
  do 2 f_equal. apply filter_ext. intros t. apply truthy_eqb.
Qed.

Lemma recurse_addAll (base : string) (rest : list (list string)) :
  forall tokens out,
    recurse base rest tokens out =
    JsSet.addAll (map (fun chosen => comboId base (tokens ++ chosen)) (cartesian rest)) out.
Proof.
  induction rest as [|group rest IH]; intros tokens out; simpl.
  - by rewrite app_nil_r.
  - revert out. induction group as [|p group IHg]; intros out; simpl; [done|].
    rewrite IHg, IH, map_app, addAll_app, map_map. do 2 f_equal.
    apply map_ext. intros chosen. by rewrite <- app_assoc.
Qed.

Lemma generate_addAll (bases : list string) (groups : list (list string)) :
  forall out,
    fold_left (fun out base => recurse base groups [] out) bases out =
    JsSet.addAll (specPrefixCombination bases groups) out.
Proof.
  unfold specPrefixCombination.
  induction bases as [|base bases IH]; intros out; simpl; [done|].
  rewrite IH, recurse_addAll, addAll_app. do 2 f_equal.
  apply map_ext. intros chosen. apply comboId_spec.
Qed.

Lemma elem_of_cartesian (groups : list (list string)) :
  forall tokens, tokens ∈ cartesian groups <-> Forall2 (fun t g => t ∈ g) tokens groups.
Proof.
  induction groups as [|group groups IH]; intros tokens; simpl.
  - rewrite list_elem_of_singleton. split; [intros ->; constructor | by inversion 1].
  - rewrite list_elem_of_In, in_flat_map. split.
    + intros (p & Hp & Hin). apply in_map_iff in Hin as (rest & <- & Hrest).
      constructor; [by apply list_elem_of_In | by apply IH, list_elem_of_In].
    + inversion 1 as [|p g rest gs Hp Hrest]; subst.
      exists p. split; [by apply list_elem_of_In|].
      apply in_map_iff. exists rest. split; [done|]. by apply list_elem_of_In, IH.
Qed.

Lemma elem_of_specPrefixCombination (bases : list string) (groups : list (list string))
    (id : string) :
  id ∈ specPrefixCombination bases groups <->
  exists base tokens,
    base ∈ bases /\ Forall2 (fun t g => t ∈ g) tokens groups /\ id = specComboId base tokens.
Proof.
  unfold specPrefixCombination. rewrite list_elem_of_In, in_flat_map. split.
  - intros (base & Hb & Hin). apply in_map_iff in Hin as (tokens & <- & Ht).
    exists base, tokens. split; [by apply list_elem_of_In|]. split; [|done].
    by apply elem_of_cartesian, list_elem_of_In.
  - intros (base & tokens & Hb & Ht & ->). exists base.
    split; [by apply list_elem_of_In|]. apply in_map_iff. exists tokens.
    split; [done|]. by apply list_elem_of_In, elem_of_cartesian.
Qed.

(** C5. [PrefixComboRule.generate] emits, for each base, the id of every
    element of the Cartesian product of the groups (non-empty tokens joined
    with [_] and prepended, the bare base when all tokens are empty),
    collapsed to a set; for [copper_door] with the wax and oxidation groups
    that is exactly the 8 ids listed. *)
Theorem PrefixComboRule_generate_product (bases : list string) (groups : list (list string)) :
  let out := generate {| combo_bases := bases; prefixGroups := groups |} in
  out = JsSet.ofList (specPrefixCombination bases groups)
  /\ NoDup out
  /\ (forall id, id ∈ out <->
        exists base tokens,
          base ∈ bases /\ Forall2 (fun t g => t ∈ g) tokens groups
          /\ id = specComboId base tokens)
  /\ generate {| combo_bases := ["copper_door"];
                 prefixGroups := [[""; "waxed"]; [""; "exposed"; "weathered"; "oxidized"]] |}
     = ["copper_door"; "exposed_copper_door"; "weathered_copper_door";
        "oxidized_copper_door"; "waxed_copper_door"; "waxed_exposed_copper_door";
        "waxed_weathered_copper_door"; "waxed_oxidized_copper_door"].
Proof.
  assert (Heq : generate {| combo_bases := bases; prefixGroups := groups |}
                = JsSet.ofList (specPrefixCombination bases groups)).
  { unfold generate, PrefixComboRule_generate. simpl. apply generate_addAll. }
  simpl. rewrite Heq. split; [done|]. split; [apply NoDup_ofList|]. split.
  - intros id. rewrite elem_of_ofList. apply elem_of_specPrefixCombination.
  - vm_compute. reflexivity.
Qed.

End PrefixCombo.

Section Classification.

Lemma elem_of_rules_fold (rules : list Rule) (id : string) :
  forall out,
    id ∈ fold_left (fun out rule => JsSet.addAll (ruleGenerate rule) out) rules out <->
    id ∈ out \/ exists rule, rule ∈ rules /\ id ∈ ruleGenerate rule.
Proof.
  induction rules as [|rule rules IH]; intros out; simpl.
  - split; [by left | intros [H | (r & Hr & _)]; [done | by apply elem_of_nil in Hr]].
  - rewrite IH, elem_of_addAll. split.
    + intros [[H | H] | (r & Hr & Hid)].
      * right. exists rule. split; [apply list_elem_of_here | done].
      * by left.
      * right. exists r. split; [by apply list_elem_of_further | done].
    + intros [H | (r & Hr & Hid)]; [by left; right|].
      apply elem_of_cons in Hr as [-> | Hr]; [by left; left|].
      right. by exists r.
Qed.

(** The statically declared set is the union of what the configured rules generate. *)
Lemma elem_of_getHardcodedTwoDItemIds (id : string) :
  id ∈ getHardcodedTwoDItemIds <->
  exists rule, rule ∈ hardcodedRules /\ id ∈ ruleGenerate rule.
Proof.
  unfold getHardcodedTwoDItemIds. rewrite elem_of_rules_fold. unfold JsSet.empty.
  split; [intros [H | H]; [by apply elem_of_nil in H | done] | by right].
Qed.

Lemma elem_of_twoDItemIds (detected : JsSet.t) (id : string) :
  id ∈ twoDItemIds detected <-> id ∈ detected \/ id ∈ getHardcodedTwoDItemIds.
Proof. unfold twoDItemIds. by rewrite elem_of_ofList, elem_of_app. Qed.

(** C3. The classification set is exactly detected ∪ declared: nothing
    detected is ever removed, and the render size of an id is 16 when the id
    is in the set and 128 otherwise. *)
Theorem twoDItemIds_additive_union (detected : JsSet.t) :
  (list_to_set (twoDItemIds detected) : gset string)
    = list_to_set detected ∪ list_to_set getHardcodedTwoDItemIds
  /\ (forall id, id ∈ twoDItemIds detected <->
                 id ∈ detected \/
                 exists rule, rule ∈ hardcodedRules /\ id ∈ ruleGenerate rule)
  /\ (forall id, id ∈ detected -> JsSet.has id (twoDItemIds detected) = true)
  /\ (forall id, renderSize (twoDItemIds detected) id =
                 if JsSet.has id (twoDItemIds detected) then 16%nat else 128%nat)
  /\ (forall id, id ∈ twoDItemIds detected -> renderSize (twoDItemIds detected) id = 16%nat)
  /\ (forall id, id ∉ twoDItemIds detected -> renderSize (twoDItemIds detected) id = 128%nat).
Proof.
  split; [|split; [|split; [|split; [|split]]]].
  - apply set_eq. intros id.
    rewrite elem_of_union, !elem_of_list_to_set. apply elem_of_twoDItemIds.
  - intros id. by rewrite elem_of_twoDItemIds, elem_of_getHardcodedTwoDItemIds.
  - intros id Hid. apply has_true, elem_of_twoDItemIds. by left.
  - done.
  - intros id Hid. unfold renderSize. apply has_true in Hid. by rewrite Hid.
  - intros id Hid. unfold renderSize, JsSet.has. by rewrite bool_decide_eq_false_2.
Qed.

Lemma startsWith_append (p s : string) : Js.startsWith p (p +:+ s) = true.
Proof. induction p as [|c p IH]; [done|]. simpl. by rewrite Ascii.eqb_refl. Qed.

Lemma slice_append (p s : string) : Js.slice (String.length p) (p +:+ s) = s.
Proof. by induction p as [|c p IH]. Qed.

Lemma startsWith_slice (p s : string) :
  Js.startsWith p s = true -> s = p +:+ Js.slice (String.length p) s.
Proof.
  revert s. induction p as [|c p IH]; intros s; [done|].
  destruct s as [|d s]; simpl; [done|].
  destruct (Ascii.eqb_spec c d) as [->|]; [|done].
  intros H. change (String d s = String d (p +:+ Js.slice (String.length p) s)).
  f_equal. by apply IH.
Qed.

Lemma truthy_nonempty (s : string) : Js.truthy s = true <-> s <> "".
Proof. by destruct s. Qed.

Lemma elem_of_detect_fold (textures : list string) (id : string) :
  forall twoD,
    id ∈ fold_left
           (fun twoD tex =>
              if Js.startsWith "item/" tex then
                let id := Js.slice (String.length "item/") tex in
                if Js.truthy id then JsSet.add id twoD else twoD
              else twoD) textures twoD <->
    id ∈ twoD \/ (id <> "" /\ "item/" +:+ id ∈ textures).
Proof.
  induction textures as [|tex textures IH]; intros twoD.
  - simpl. split; [by left | intros [H | [_ H]]; [done | by apply elem_of_nil in H]].
  - cbn [fold_left]. rewrite IH, elem_of_cons. clear IH.
    destruct (Js.startsWith "item/" tex) eqn:Hpre.
    + apply startsWith_slice in Hpre.
      destruct (Js.truthy (Js.slice (String.length "item/") tex)) eqn:Hid; cbv zeta; rewrite ?Hid.
      * rewrite elem_of_add. apply truthy_nonempty in Hid. split.
        -- intros [[-> | H] | [Hne H]]; [right | by left | right; tauto].
           split; [done|]. by left.
        -- intros [H | [Hne [H | H]]]; [by left; right | | right; tauto].
           left; left. subst tex. by rewrite slice_append.
      * split; [tauto|]. intros [H | [Hne [H | H]]]; [by left | | right; tauto].
        exfalso. subst tex. by destruct id.
    + split; [tauto|]. intros [H | [Hne [H | H]]]; [by left | | right; tauto].
      exfalso. subst tex. by rewrite startsWith_append in Hpre.
Qed.

Lemma NoDup_detect_fold (textures : list string) :
  forall twoD,
    NoDup twoD ->
    NoDup (fold_left
             (fun twoD tex =>
                if Js.startsWith "item/" tex then
                  let id := Js.slice (String.length "item/") tex in
                  if Js.truthy id then JsSet.add id twoD else twoD
                else twoD) textures twoD).
Proof.
  induction textures as [|tex textures IH]; intros twoD Hnd; [done|].
  cbn [fold_left]. apply IH.
  destruct (Js.startsWith "item/" tex); [|done].
  cbv zeta. destruct (Js.truthy _); [by apply NoDup_add | done].
Qed.

(** The detection pass adds the id of a nested texture path. *)
Lemma fetchTwoDItemIds_nested_path_detected :
  "models/bow" ∈ fetchTwoDItemIds ["item/models/bow"]
  /\ ~ directlyUnder "item/" "item/models/bow".
Proof.
  split.
  - vm_compute. apply list_elem_of_here.
  - intros (leaf & Heq & _ & Hslash). apply Hslash.
    change ("item/" +:+ "models/bow" = "item/" +:+ leaf) in Heq.
    assert (leaf = "models/bow") as ->.
    { rewrite <- (slice_append "item/" leaf), <- Heq. done. }
    vm_compute. do 6 apply list_elem_of_further. apply list_elem_of_here.
Qed.

(** C4, amended. The detection pass produces exactly the non-empty
    remainders of the texture paths that start with [item/], nested paths
    included; paths without the prefix and the bare prefix contribute
    nothing. *)
Theorem fetchTwoDItemIds_exact (textures : list string) :
  NoDup (fetchTwoDItemIds textures)
  /\ (forall id, id ∈ fetchTwoDItemIds textures <->
                 id <> "" /\ "item/" +:+ id ∈ textures)
  /\ (forall id, id ∈ fetchTwoDItemIds textures ->
                 exists tex, tex ∈ textures /\ Js.startsWith "item/" tex = true
                             /\ id = Js.slice 5 tex).
Proof.
  assert (Hiff : forall id, id ∈ fetchTwoDItemIds textures <->
                            id <> "" /\ "item/" +:+ id ∈ textures).
  { intros id. unfold fetchTwoDItemIds. rewrite elem_of_detect_fold.
    unfold JsSet.empty. split; [intros [H | H]; [by apply elem_of_nil in H | done] | by right]. }
  split; [|split; [exact Hiff|]].
  - apply NoDup_detect_fold, NoDup_nil_2.
  - intros id Hid. apply Hiff in Hid as [_ Hin]. exists ("item/" +:+ id).
    split; [done|]. split; [apply startsWith_append|].
    symmetry. apply (slice_append "item/" id).
Qed.

End Classification.

(** ** Texture atlas *)

Section Atlas.

Local Open Scope Z_scope.

Lemma upperPowerOfTwo_pos (x : Z) : 0 < upperPowerOfTwo x.
Proof. unfold upperPowerOfTwo. apply Z.pow_pos_nonneg; [lia | apply Z.log2_up_nonneg]. Qed.

(** The modelled [upperPowerOfTwo] is what the spec says: a power of two, at
    least its argument, and the smallest such. *)
Lemma upperPowerOfTwo_smallest (x : Z) :
  (exists k, 0 <= k /\ upperPowerOfTwo x = 2 ^ k)
  /\ x <= upperPowerOfTwo x
  /\ (forall k, 0 <= k -> x <= 2 ^ k -> upperPowerOfTwo x <= 2 ^ k).
Proof.
  unfold upperPowerOfTwo. split; [|split].
  - exists (Z.log2_up x). split; [apply Z.log2_up_nonneg | done].
  - destruct (Z_lt_le_dec 1 x) as [Hx | Hx].
    + apply Z.log2_up_spec in Hx. lia.
    + pose proof (Z.pow_pos_nonneg 2 (Z.log2_up x) ltac:(lia) (Z.log2_up_nonneg x)). lia.
  - intros k Hk Hle. apply Z.pow_le_mono_r; [lia|].
    destruct (Z_lt_le_dec 0 x) as [Hx | Hx].
    + by apply Z.log2_up_le_pow2.
    + rewrite Z.log2_up_nonpos by lia. done.
Qed.

Lemma canonicalId_inj (a b : string) : canonicalId a = canonicalId b -> a = b.
Proof.
  unfold canonicalId. intros H.
  by rewrite <- (slice_append "minecraft:" a), <- (slice_append "minecraft:" b), H.
Qed.

Lemma atlasUV_effectiveDv (w h : Z) (rawId : string) (u v du dv : Z) :
  atlasUV w h rawId (u, v, du, dv) =
  (numDiv u w, numDiv v h, numDiv (u + du) w, numDiv (v + effectiveDv rawId du dv) h).
Proof.
  unfold atlasUV, effectiveDv. by rewrite andb_comm.
Qed.

Section Fold.

Variables w h : Z.

Let step (idMap : gmap string UV) (entry : string * RawUV) : gmap string UV :=
  let '(rawId, tuple) := entry in
  <[canonicalId rawId := atlasUV w h rawId tuple]> idMap.

Lemma atlas_fold_other (textures : list (string * RawUV)) (rawId : string) :
  forall idMap,
    rawId ∉ map fst textures ->
    fold_left step textures idMap !! canonicalId rawId = idMap !! canonicalId rawId.
Proof.
  induction textures as [|[k t] textures IH]; intros idMap Hnot; [done|].
  simpl in *. apply not_elem_of_cons in Hnot as [Hne Hnot].
  rewrite IH by done. apply lookup_insert_ne.
  intros Heq. apply Hne. symmetry. by apply canonicalId_inj.
Qed.

Lemma atlas_fold_lookup (textures : list (string * RawUV)) (rawId : string) (tuple : RawUV) :
  forall idMap,
    NoDup (map fst textures) ->
    (rawId, tuple) ∈ textures ->
    fold_left step textures idMap !! canonicalId rawId = Some (atlasUV w h rawId tuple).
Proof.
  induction textures as [|[k t] textures IH]; intros idMap Hnd Hin.
  - by apply elem_of_nil in Hin.
  - simpl in *. apply list.NoDup_cons in Hnd as [Hk Hnd].
    apply elem_of_cons in Hin as [Heq | Hin].
    + simplify_eq. rewrite atlas_fold_other by done. apply lookup_insert_eq.
    + by apply IH.
Qed.

Lemma atlas_fold_origin (textures : list (string * RawUV)) (id : string) (uv : UV) :
  forall idMap,
    fold_left step textures idMap !! id = Some uv ->
    idMap !! id = Some uv \/
    exists rawId tuple,
      (rawId, tuple) ∈ textures /\ id = canonicalId rawId /\ uv = atlasUV w h rawId tuple.
Proof.
  induction textures as [|[k t] textures IH]; intros idMap Hlk; [by left|].
  simpl in Hlk. apply IH in Hlk as [Hlk | (rawId & tuple & Hin & -> & ->)].
  - destruct (decide (canonicalId k = id)) as [<- | Hne].
    + rewrite lookup_insert_eq in Hlk. simplify_eq. right. exists k, t.
      split; [apply list_elem_of_here | done].
    + rewrite lookup_insert_ne in Hlk by done. by left.
  - right. exists rawId, tuple. split; [by apply list_elem_of_further | done].
Qed.

End Fold.

Lemma Qc_of_Z_pos (w : Z) : 0 < w -> (0 < Qc_of_Z w)%Qc.
Proof. intros Hw. rewrite <- Z2Qc_inj_0. by apply (proj1 (Z2Qc_inj_lt 0 w)). Qed.

Lemma numDiv_le (a b w : Z) : 0 < w -> a <= b -> (numDiv a w <= numDiv b w)%Qc.
Proof.
  intros Hw Hab. unfold numDiv, Qcdiv. apply Qcmult_le_mono_nonneg_r.
  - apply Qclt_le_weak, Qcinv_pos. by apply Qc_of_Z_pos.
  - by apply (proj1 (Z2Qc_inj_le a b)).
Qed.

Lemma numDiv_lt (a b w : Z) : 0 < w -> a < b -> (numDiv a w < numDiv b w)%Qc.
Proof.
  intros Hw Hab. unfold numDiv, Qcdiv. apply Qcmult_lt_mono_pos_r.
  - apply Qcinv_pos. by apply Qc_of_Z_pos.
  - by apply (proj1 (Z2Qc_inj_lt a b)).
Qed.

Lemma numDiv_0 (w : Z) : numDiv 0 w = 0%Qc.
Proof. unfold numDiv, Qcdiv. rewrite Z2Qc_inj_0. apply Qcmult_0_l. Qed.

Lemma numDiv_diag (w : Z) : 0 < w -> numDiv w w = 1%Qc.
Proof.
  intros Hw. unfold numDiv, Qcdiv. apply Qcmult_inv_r.
  rewrite <- Z2Qc_inj_0. intros Heq. apply Z2Qc_inj in Heq. lia.
Qed.

Lemma numDiv_add (a b w : Z) : numDiv (a + b) w = (numDiv a w + numDiv b w)%Qc.
Proof. unfold numDiv, Qcdiv. rewrite Z2Qc_inj_add. apply Qcmult_plus_distr_l. Qed.

Lemma entryOnCanvas_wellFormed (w h : Z) (rawId : string) (tuple : RawUV) :
  0 < w -> 0 < h -> entryOnCanvas w h rawId tuple -> uvWellFormed (atlasUV w h rawId tuple).
Proof.
  destruct tuple as [[[u v] du] dv]. intros Hw Hh (Hu & Hdu & Hur & Hv & Hdv & Hvb).
  rewrite atlasUV_effectiveDv. unfold uvWellFormed.
  repeat split.
  - rewrite <- (numDiv_0 w). apply numDiv_le; lia.
  - apply numDiv_lt; lia.
  - rewrite <- (numDiv_diag w Hw). apply numDiv_le; lia.
  - rewrite <- (numDiv_0 h). apply numDiv_le; lia.
  - apply numDiv_lt; lia.
  - rewrite <- (numDiv_diag h Hh). apply numDiv_le; lia.
Qed.

(** C1. For a raw entry [(u, v, du, dv)] whose raw id starts with [block/]
    and has [du <> dv], the atlas stores [(u/W, v/H, (u+du)/W, (v+du)/H)];
    for every other entry it stores [(u/W, v/H, (u+du)/W, (v+dv)/H)], with
    [W] and [H] the power-of-two canvas sides.  So [block/lava_flow] with
    [du = 16], [dv = 64] spans 16 source pixels vertically. *)
Theorem loadBlockAtlas_first_frame (image : Image) (textures : list (string * RawUV))
    (rawId : string) (u v du dv : Z) :
  NoDup (map fst textures) ->
  (rawId, (u, v, du, dv)) ∈ textures ->
  let W := upperPowerOfTwo (width image) in
  let H := upperPowerOfTwo (height image) in
  loadBlockAtlas image textures !! canonicalId rawId =
    Some (if Js.startsWith "block/" rawId && negb (du =? dv)
          then (numDiv u W, numDiv v H, numDiv (u + du) W, numDiv (v + du) H)
          else (numDiv u W, numDiv v H, numDiv (u + du) W, numDiv (v + dv) H))
  /\ (forall u' v',
        loadBlockAtlas image [("block/lava_flow", (u', v', 16, 64))]
          !! "minecraft:block/lava_flow"
        = Some (numDiv u' W, numDiv v' H, numDiv (u' + 16) W, numDiv (v' + 16) H)
        /\ (numDiv (v' + 16) H - numDiv v' H = numDiv 16 H)%Qc).
Proof.
  intros Hnd Hin W H. split.
  - unfold loadBlockAtlas. fold W H.
    rewrite (atlas_fold_lookup W H textures rawId (u, v, du, dv)) by done.
    rewrite atlasUV_effectiveDv. unfold effectiveDv.
    by destruct (Js.startsWith "block/" rawId && negb (du =? dv)).
  - intros u' v'. split.
    + unfold loadBlockAtlas. fold W H. simpl. apply lookup_insert_eq.
    + rewrite numDiv_add. ring.
Qed.

Lemma loadBlockAtlas_first_frame_lava_flow :
  NoDup (map fst [("block/lava_flow", (0, 32, 16, 64)); ("item/stick", (16, 0, 16, 16))])
  /\ loadBlockAtlas {| width := 1024; height := 512 |}
       [("block/lava_flow", (0, 32, 16, 64)); ("item/stick", (16, 0, 16, 16))]
       !! "minecraft:block/lava_flow"
     = Some (numDiv 0 1024, numDiv 32 512, numDiv 16 1024, numDiv 48 512).
Proof.
  assert (Hnd : NoDup (map fst [("block/lava_flow", (0, 32, 16, 64));
                                ("item/stick", (16, 0, 16, 16))])).
  { apply (bool_decide_unpack _). vm_compute. exact I. }
  split; [exact Hnd|].
  exact (proj1 (loadBlockAtlas_first_frame {| width := 1024; height := 512 |}
                  [("block/lava_flow", (0, 32, 16, 64)); ("item/stick", (16, 0, 16, 16))]
                  "block/lava_flow" 0 32 16 64 Hnd (list_elem_of_here _ _))).
Defined.

(** A table entry of zero size gives a degenerate rectangle. *)
Lemma loadBlockAtlas_degenerate_entry :
  loadBlockAtlas {| width := 16; height := 16 |} [("item/stick", (0, 0, 0, 0))]
    !! "minecraft:item/stick"
  = Some (numDiv 0 16, numDiv 0 16, numDiv 0 16, numDiv 0 16)
  /\ ~ uvWellFormed (numDiv 0 16, numDiv 0 16, numDiv 0 16, numDiv 0 16).
Proof.
  split.
  - unfold loadBlockAtlas. simpl. apply lookup_insert_eq.
  - unfold uvWellFormed. intros (_ & Hlt & _). by apply Qclt_not_eq in Hlt.
Qed.

(** C2, amended. When every entry of the UV table is non-empty and lies on
    the canvas ([0 <= u], [0 < du], [u + du <= W], [0 <= v], [0 < dv_eff],
    [v + dv_eff <= H]), every rectangle in the atlas satisfies
    [0 <= u0 < u1 <= 1] and [0 <= v0 < v1 <= 1]. *)
Theorem loadBlockAtlas_uv_bounds (image : Image) (textures : list (string * RawUV)) :
  (forall rawId tuple,
     (rawId, tuple) ∈ textures ->
     entryOnCanvas (upperPowerOfTwo (width image)) (upperPowerOfTwo (height image))
                   rawId tuple) ->
  forall id uv, loadBlockAtlas image textures !! id = Some uv -> uvWellFormed uv.
Proof.
  intros Hon id uv Hlk. unfold loadBlockAtlas in Hlk.
  apply atlas_fold_origin in Hlk as [Hlk | (rawId & tuple & Hin & -> & ->)].
  - by rewrite lookup_empty in Hlk.
  - apply entryOnCanvas_wellFormed; [apply upperPowerOfTwo_pos .. | by apply Hon].
Qed.

Lemma loadBlockAtlas_uv_bounds_stone :
  uvWellFormed (numDiv 0 16, numDiv 16 32, numDiv 16 16, numDiv 32 32).
Proof.
  apply (loadBlockAtlas_uv_bounds {| width := 16; height := 20 |}
           [("block/stone", (0, 16, 16, 16))]) with (id := "minecraft:block/stone").
  - intros rawId tuple Hin. apply list_elem_of_singleton in Hin.
    injection Hin as -> ->. vm_compute. repeat split; congruence.
  - unfold loadBlockAtlas. simpl. apply lookup_insert_eq.
Defined.

End Atlas.

(** ** Item components *)

Section Components.

Context {V : Type}.

Lemma mapSet_fresh (k : string) (v : V) (m : list (string * V)) :
  k ∉ map fst m -> mapSet k v m = m ++ [(k, v)].
Proof.
  induction m as [|[k' v'] m IH]; intros Hk; simpl in *; [done|].
  apply not_elem_of_cons in Hk as [Hne Hk].
  destruct (decide (k = k')); [done|]. by rewrite IH.
Qed.

Lemma mapOfEntries_fold (entries : list (string * V)) :
  forall m,
    NoDup (map fst (m ++ entries)) ->
    fold_left (fun m kv => mapSet kv.1 kv.2 m) entries m = m ++ entries.
Proof.
  induction entries as [|[k v] entries IH]; intros m Hnd; simpl.
  - by rewrite app_nil_r.
  - assert (Hk : k ∉ map fst m).
    { rewrite map_app in Hnd. apply list.NoDup_app in Hnd as (_ & Hdisj & _).
      intros Hin. apply (Hdisj k Hin). simpl. apply list_elem_of_here. }
    rewrite mapSet_fresh by done. rewrite IH; [by rewrite <- app_assoc|].
    by rewrite <- app_assoc.
Qed.

(** A [Map] built from entries with distinct keys lists them in the same order. *)
Lemma mapOfEntries_NoDup (entries : list (string * V)) :
  NoDup (map fst entries) -> mapOfEntries entries = entries.
Proof. intros Hnd. unfold mapOfEntries. by rewrite mapOfEntries_fold. Qed.

End Components.

Lemma map_fst_converted (entries : list (string * JsValue)) :
  map fst (map (fun kv => (fst kv, jsonToNbt (snd kv))) entries) = map fst entries.
Proof. rewrite map_map. by apply map_ext. Qed.

(** C6. [jsonToNbt] is a total function: a string gives a string tag, an
    integral number an integer tag, any other number a double tag, a boolean
    the byte 1 or 0, an array the list of its converted elements in order, an
    object the mapping of its converted properties in order, and anything
    else the byte 0. *)
Theorem jsonToNbt_cases :
  (forall s, jsonToNbt (JString s) = NbtString s)
  /\ (forall x, jsonToNbt (JNumber x) = if isInteger x then NbtInt x else NbtDouble x)
  /\ (forall z, jsonToNbt (JNumber (numberOfZ z)) = NbtInt (numberOfZ z))
  /\ jsonToNbt (JNumber (S754_finite false 3 (-1))) = NbtDouble (S754_finite false 3 (-1))
  /\ jsonToNbt (JBoolean true) = NbtByte 1
  /\ jsonToNbt (JBoolean false) = NbtByte 0
  /\ (forall items,
        exists tags, jsonToNbt (JArray items) = NbtList tags
                     /\ length tags = length items
                     /\ forall i, tags !! i = jsonToNbt <$> items !! i)
  /\ (forall entries,
        NoDup (map fst entries) ->
        exists props, jsonToNbt (JObject entries) = NbtCompound props
                      /\ map fst props = map fst entries
                      /\ forall i, props !! i = (fun kv => (kv.1, jsonToNbt kv.2)) <$> entries !! i)
  /\ jsonToNbt JNull = NbtByte 0
  /\ jsonToNbt JUndefined = NbtByte 0
  /\ jsonToNbt JOther = NbtByte 0
  /\ (forall value, exists tag, jsonToNbt value = tag).
Proof.
  repeat apply conj; try done.
  - intros z. by destruct z.
  - intros items. exists (map jsonToNbt items).
    split; [done|]. split; [apply length_map|].
    intros i. apply (list_lookup_fmap jsonToNbt).
  - intros entries Hnd. exists (map (fun kv => (fst kv, jsonToNbt (snd kv))) entries).
    split; [|split].
    + simpl. f_equal. apply mapOfEntries_NoDup. by rewrite map_fst_converted.
    + apply map_fst_converted.
    + intros i. apply (list_lookup_fmap (fun kv => (kv.1, jsonToNbt kv.2))).
  - intros value. by eexists.
Qed.

(** The component example of the specification. *)
Example jsonToNbt_components :
  jsonToNbt (JObject [("max_stack_size", JNumber (numberOfZ 64));
                      ("rarity", JString "common");
                      ("unbreakable", JObject [])])
  = NbtCompound [("max_stack_size", NbtInt (numberOfZ 64));
                 ("rarity", NbtString "common");
                 ("unbreakable", NbtCompound [])].
Proof. reflexivity. Qed.

Lemma jsonToNbt_cases_components :
  let entries := [("max_stack_size", JNumber (numberOfZ 64));
                  ("rarity", JString "common");
                  ("unbreakable", JObject [])] in
  NoDup (map fst entries)
  /\ exists props,
       jsonToNbt (JObject entries) = NbtCompound props
       /\ map fst props = map fst entries
       /\ forall i, props !! i = (fun kv => (kv.1, jsonToNbt kv.2)) <$> entries !! i.
Proof.
  intros entries.
  assert (Hnd : NoDup (map fst entries)).
  { apply (bool_decide_unpack _). vm_compute. exact I. }
  split; [exact Hnd|].
  destruct jsonToNbt_cases as (_ & _ & _ & _ & _ & _ & _ & Hobj & _).
  exact (Hobj entries Hnd).
Defined.

(** ** Vertical flip *)

Section Flip.

Variable n : nat.

Let rowLength (rows : list (list byte)) : Prop := Forall (fun row => length row = n) rows.

Lemma length_concat_rows (rows : list (list byte)) :
  rowLength rows -> length (concat rows) = (length rows * n)%nat.
Proof.
  induction 1 as [|row rows Hrow _ IH]; [done|].
  simpl. rewrite length_app, IH, Hrow. done.
Qed.

Lemma concat_rowsOf (h : nat) :
  forall buf, length buf = (h * n)%nat -> concat (rowsOf n h buf) = buf.
Proof.
  induction h as [|h IH]; intros buf Hlen; simpl.
  - by destruct buf.
  - rewrite IH; [apply take_drop|]. rewrite length_drop. simpl in Hlen. lia.
Qed.

Lemma length_rowsOf (h : nat) (buf : list byte) : length (rowsOf n h buf) = h.
Proof. revert buf. induction h as [|h IH]; intros buf; simpl; [done|]. by rewrite IH. Qed.

Lemma rowLength_rowsOf (h : nat) :
  forall buf, length buf = (h * n)%nat -> rowLength (rowsOf n h buf).
Proof.
  induction h as [|h IH]; intros buf Hlen; simpl; [constructor|].
  simpl in Hlen. constructor.
  - rewrite length_take. lia.
  - apply IH. rewrite length_drop. lia.
Qed.

Lemma row_of_concat (rows : list (list byte)) :
  rowLength rows ->
  forall r row, rows !! r = Some row -> take n (drop (r * n) (concat rows)) = row.
Proof.
  induction 1 as [|first rows Hfirst Hrows IH]; intros r row Hr; [done|].
  destruct r as [|r]; simpl in *.
  - simplify_eq. by apply take_app_length'.
  - rewrite drop_app, drop_ge, Hfirst by lia. simpl.
    replace (n + r * n - n)%nat with (r * n)%nat by lia. by apply IH.
Qed.

(** The loop of [flipYAxis] after the rows in [done] have been copied and
    with the rows in [todo] still to copy. *)
Lemma flip_loop (width : nat) (rows : list (list byte)) :
  n = (width * 4)%nat ->
  rowLength rows ->
  forall todo done,
    rows = done ++ todo ->
    foldResult
      (fun result row =>
         let srcStart := (row * (width * 4))%nat in
         let destStart := ((length rows - row - 1) * (width * 4))%nat in
         typedArraySet result
           (subarray (concat rows) srcStart (srcStart + width * 4)) destStart)
      (seq (length done) (length todo))
      (replicate (length todo * n) x00 ++ concat (reverse done))
    = Ok (concat (reverse rows)).
Proof.
  intros Hn Hrows.
  set (body := fun (result : list byte) (row : nat) => _).
  induction todo as [|row todo IH]; intros done Hsplit.
  - simpl. by rewrite Hsplit, app_nil_r.
  - cbn [length seq foldResult].
    assert (Hstep :
      body (replicate (S (length todo) * n) x00 ++ concat (reverse done)) (length done)
      = Ok (replicate (length todo * n) x00 ++ concat (reverse (done ++ [row])))).
    { unfold body. cbv zeta. rewrite <- Hn.
      assert (Hrow : subarray (concat rows) (length done * n) (length done * n + n) = row).
      { unfold subarray. replace (length done * n + n - length done * n)%nat with n by lia.
        apply row_of_concat; [done|]. rewrite Hsplit.
        by rewrite lookup_app_r, Nat.sub_diag by done. }
      rewrite Hrow.
      assert (Hlen : length row = n).
      { pose proof Hrows as Hall. unfold rowLength in Hall. rewrite Hsplit in Hall.
        apply Forall_app in Hall as [_ Hall]. by apply Forall_inv in Hall. }
      assert (Hdest : (length rows - length done - 1 = length todo)%nat).
      { rewrite Hsplit, length_app. simpl. lia. }
      rewrite Hdest. unfold typedArraySet. rewrite decide_True.
      2:{ rewrite length_app, length_replicate, Hlen. lia. }
      rewrite take_app_le by (rewrite length_replicate; lia).
      rewrite take_replicate, Nat.min_l by lia.
      rewrite drop_app_length' by (rewrite length_replicate, Hlen; lia).
      by rewrite reverse_snoc. }
    rewrite Hstep. simpl.
    replace (S (length done)) with (length (done ++ [row]))
      by (rewrite length_app; simpl; lia).
    apply IH. by rewrite <- app_assoc.
Qed.

End Flip.

Lemma flipYAxis_concat (width : nat) (rows : list (list byte)) :
  Forall (fun row => length row = (width * 4)%nat) rows ->
  flipYAxis (concat rows) width (length rows) = Ok (concat (reverse rows)).
Proof.
  intros Hrows. unfold flipYAxis. cbv zeta.
  rewrite (length_concat_rows (width * 4)) by done.
  pose proof (flip_loop (width * 4) width rows eq_refl Hrows rows [] eq_refl) as Hloop.
  simpl in Hloop. by rewrite app_nil_r in Hloop.
Qed.

Lemma pixelRow_lookup (width : nat) (buf : list byte) (r i : nat) :
  (i < width * 4)%nat -> pixelRow width buf r !! i = buf !! (r * (width * 4) + i)%nat.
Proof. intros Hi. unfold pixelRow. by rewrite lookup_take_lt, lookup_drop. Qed.

Lemma pixelRow_concat (width : nat) (rows : list (list byte)) (r : nat) (row : list byte) :
  Forall (fun row => length row = (width * 4)%nat) rows ->
  rows !! r = Some row -> pixelRow width (concat rows) r = row.
Proof. intros Hrows Hr. unfold pixelRow. by apply row_of_concat. Qed.

(** C7. On a buffer of [w * h * 4] bytes the flip returns a buffer of the
    same length whose row [r] is input row [h - 1 - r] for every [r < h],
    each row copied as one block of [4 * w] bytes in unchanged order. *)
Theorem flipYAxis_reverses_rows (data : list byte) (width height : nat) :
  length data = (width * height * 4)%nat ->
  exists out,
    flipYAxis data width height = Ok out
    /\ length out = length data
    /\ (forall r, (r < height)%nat ->
                  pixelRow width out r = pixelRow width data (height - 1 - r))
    /\ (forall r i, (r < height)%nat -> (i < width * 4)%nat ->
                    out !! (r * (width * 4) + i)%nat
                    = data !! ((height - 1 - r) * (width * 4) + i)%nat).
Proof.
  intros Hlen.
  assert (Hlen' : length data = (height * (width * 4))%nat) by lia.
  set (rows := rowsOf (width * 4) height data).
  assert (Hrows : Forall (fun row => length row = (width * 4)%nat) rows)
    by by apply rowLength_rowsOf.
  assert (Hh : length rows = height) by apply length_rowsOf.
  assert (Hdata : data = concat rows) by (symmetry; by apply concat_rowsOf).
  assert (Hrow : forall r, (r < height)%nat ->
            pixelRow width (concat (reverse rows)) r = pixelRow width data (height - 1 - r)).
  { intros r Hr.
    destruct (lookup_lt_is_Some_2 rows (height - 1 - r)) as [row Hlk]; [lia|].
    rewrite Hdata. rewrite (pixelRow_concat width rows (height - 1 - r) row) by done.
    apply pixelRow_concat; [by apply Forall_reverse|].
    rewrite reverse_lookup by lia. rewrite <- Hlk. f_equal. lia. }
  exists (concat (reverse rows)). split; [|split; [|split]].
  - rewrite Hdata at 1. rewrite <- Hh. by apply flipYAxis_concat.
  - rewrite (length_concat_rows (width * 4)) by by apply Forall_reverse.
    rewrite length_reverse. lia.
  - exact Hrow.
  - intros r i Hr Hi. rewrite <- !pixelRow_lookup by done. by rewrite Hrow.
Qed.

(** A 2-row image of 2 pixels per row: the rows swap, bytes inside a row stay put. *)
Example flipYAxis_2x2 :
  flipYAxis [x01; x02; x03; x04; x05; x06; x07; x08;
             x11; x12; x13; x14; x15; x16; x17; x18] 2 2
  = Ok [x11; x12; x13; x14; x15; x16; x17; x18;
        x01; x02; x03; x04; x05; x06; x07; x08].
Proof. reflexivity. Qed.

Lemma flipYAxis_reverses_rows_2x2 :
  let data := [x01; x02; x03; x04; x05; x06; x07; x08;
               x11; x12; x13; x14; x15; x16; x17; x18] in
  length data = (2 * 2 * 4)%nat
  /\ exists out,
       flipYAxis data 2 2 = Ok out
       /\ length out = length data
       /\ (forall r, (r < 2)%nat -> pixelRow 2 out r = pixelRow 2 data (2 - 1 - r))
       /\ (forall r i, (r < 2)%nat -> (i < 2 * 4)%nat ->
                       out !! (r * (2 * 4) + i)%nat = data !! ((2 - 1 - r) * (2 * 4) + i)%nat).
Proof.
  intros data. split; [reflexivity|].
  apply (flipYAxis_reverses_rows data 2 2). reflexivity.
Defined.

(** C10. Flipping twice with the same width and height gives back the
    original buffer, byte for byte. *)
Theorem flipYAxis_involutive (data : list byte) (width height : nat) :
  length data = (width * height * 4)%nat ->
  (flipped ← flipYAxis data width height; flipYAxis flipped width height) = Ok data.
Proof.
  intros Hlen.
  assert (Hlen' : length data = (height * (width * 4))%nat) by lia.
  set (rows := rowsOf (width * 4) height data).
  assert (Hrows : Forall (fun row => length row = (width * 4)%nat) rows)
    by by apply rowLength_rowsOf.
  assert (Hh : length rows = height) by apply length_rowsOf.
  assert (Hdata : data = concat rows) by (symmetry; by apply concat_rowsOf).
  rewrite Hdata, <- Hh. rewrite flipYAxis_concat by done. simpl.
  rewrite <- (length_reverse rows).
  rewrite flipYAxis_concat by by apply Forall_reverse.
  by rewrite reverse_involutive.
Qed.

Lemma flipYAxis_involutive_2x1 :
  (flipped ← flipYAxis [x01; x02; x03; x04; xff; xfe; xfd; xfc] 1 2;
   flipYAxis flipped 1 2)
  = Ok [x01; x02; x03; x04; xff; xfe; xfd; xfc].
Proof. exact (flipYAxis_involutive [x01; x02; x03; x04; xff; xfe; xfd; xfc] 1 2 eq_refl). Defined.

(** ** Render loop *)

Section Orchestrator.

Variables (env : Env) (twoD : JsSet.t).

Lemma forEach_app {A : Type} (body : A -> M unit) (xs ys : list A) (w : World) :
  forEach body (xs ++ ys) w =
  match forEach body xs w with
  | (Ok _, w') => forEach body ys w'
  | (Throw e, w') => (Throw e, w')
  end.
Proof.
  revert w. induction xs as [|x xs IH]; intros w; [done|].
  simpl. unfold mbind, M_bind. destruct (body x w) as [[[]|e] w']; [apply IH | done].
Qed.

Lemma renderCandidate_no_model (id : string) (w : World) :
  getItemModel env id = None ->
  renderCandidate env twoD id w
  = (Ok (), {| files := files w; console := console w ++ [SkippingNoModel id] |}).
Proof. intros Hm. unfold renderCandidate. by rewrite Hm. Qed.

Lemma renderCandidate_exists (id : string) (w : World) (model : ItemModel) (old : list byte) :
  getItemModel env id = Some model ->
  files w !! outputPath env id = Some old ->
  renderCandidate env twoD id w
  = (Ok (), {| files := files w; console := console w ++ [SkippingExists id] |}).
Proof.
  intros Hm Hf. unfold renderCandidate. rewrite Hm.
  unfold tryCatch, mbind, M_bind, access. fold (outputPath env id). by rewrite Hf.
Qed.

Lemma renderCandidate_render_throws (id : string) (w : World) (model : ItemModel) (e : Error) :
  getItemModel env id = Some model ->
  files w !! outputPath env id = None ->
  renderItemToPng env id (renderSize twoD id) = Throw e ->
  renderCandidate env twoD id w
  = (Ok (), {| files := files w; console := console w ++ [FailedToRender id e] |}).
Proof.
  intros Hm Hf Hr. unfold renderCandidate. rewrite Hm.
  unfold tryCatch, mbind, M_bind, access, liftResult. fold (outputPath env id).
  rewrite Hf. simpl. by rewrite Hr.
Qed.

Lemma renderCandidate_write_throws (id : string) (w : World) (model : ItemModel)
    (png : list byte) :
  getItemModel env id = Some model ->
  files w !! outputPath env id = None ->
  renderItemToPng env id (renderSize twoD id) = Ok png ->
  writeFails env (outputPath env id) = true ->
  renderCandidate env twoD id w
  = (Ok (), {| files := files w;
               console := console w ++ [FailedToRender id (EIO (outputPath env id))] |}).
Proof.
  intros Hm Hf Hr Hw. unfold renderCandidate. rewrite Hm.
  unfold tryCatch, mbind, M_bind, access, liftResult, writeFile. fold (outputPath env id).
  rewrite Hf. simpl. rewrite Hr. simpl. by rewrite Hw.
Qed.

Lemma renderCandidate_rendered (id : string) (w : World) (model : ItemModel)
    (png : list byte) :
  getItemModel env id = Some model ->
  files w !! outputPath env id = None ->
  renderItemToPng env id (renderSize twoD id) = Ok png ->
  writeFails env (outputPath env id) = false ->
  renderCandidate env twoD id w
  = (Ok (), {| files := <[outputPath env id := png]> (files w);
               console := console w
                            ++ [Rendered id (renderSize twoD id) (outputPath env id)] |}).
Proof.
  intros Hm Hf Hr Hw. unfold renderCandidate. rewrite Hm.
  unfold tryCatch, mbind, M_bind, access, liftResult, writeFile. fold (outputPath env id).
  rewrite Hf. simpl. rewrite Hr. simpl. by rewrite Hw.
Qed.

(** One turn of the loop never throws, prints one line, and follows the
    state machine. *)
Lemma renderCandidate_outcome (id : string) (w : World) :
  exists line,
    renderCandidate env twoD id w
    = (Ok (), {| files := (candidateOutcome env twoD (files w) id).2;
                 console := console w ++ [line] |})
    /\ outcomeOf line = Some (id, (candidateOutcome env twoD (files w) id).1).
Proof.
  unfold candidateOutcome.
  destruct (getItemModel env id) as [model|] eqn:Hm.
  2:{ eexists. split; [by apply renderCandidate_no_model | done]. }
  destruct (files w !! outputPath env id) as [old|] eqn:Hf.
  { eexists. split; [by eapply renderCandidate_exists | done]. }
  destruct (renderItemToPng env id (renderSize twoD id)) as [png|e] eqn:Hr.
  2:{ eexists. split; [by eapply renderCandidate_render_throws | done]. }
  destruct (writeFails env (outputPath env id)) eqn:Hw.
  - eexists. split; [by eapply renderCandidate_write_throws | done].
  - eexists. split; [by eapply renderCandidate_rendered | done].
Qed.

Lemma candidateOutcome_subseteq (fs : gmap string (list byte)) (id : string) :
  fs ⊆ (candidateOutcome env twoD fs id).2.
Proof.
  unfold candidateOutcome.
  destruct (getItemModel env id); [|done].
  destruct (fs !! outputPath env id) eqn:Hf; [done|].
  destruct (renderItemToPng env id (renderSize twoD id)); [|done].
  destruct (writeFails env (outputPath env id)); [done|].
  by apply insert_subseteq.
Qed.

Lemma batchOutcomes_ids (ids : list string) :
  forall fs, map fst (batchOutcomes env twoD fs ids) = ids.
Proof. induction ids as [|id ids IH]; intros fs; simpl; [done|]. by rewrite IH. Qed.

(** The whole loop: it never throws, it prints one line per id in registry
    order, the lines follow the state machine, and no file that was there
    before is changed. *)
Lemma render_loop (ids : list string) :
  forall w,
    exists lines fs',
      forEach (renderCandidate env twoD) ids w
      = (Ok (), {| files := fs'; console := console w ++ lines |})
      /\ map outcomeOf lines = map Some (batchOutcomes env twoD (files w) ids)
      /\ files w ⊆ fs'.
Proof.
  induction ids as [|id ids IH]; intros w.
  - exists [], (files w). rewrite app_nil_r. by destruct w.
  - destruct (renderCandidate_outcome id w) as (line & Hstep & Hline).
    set (w1 := {| files := (candidateOutcome env twoD (files w) id).2;
                  console := console w ++ [line] |}) in *.
    destruct (IH w1) as (lines & fs' & Hrest & Hlines & Hsub).
    exists (line :: lines), fs'. split; [|split].
    + simpl. unfold mbind, M_bind. rewrite Hstep, Hrest. simpl.
      by rewrite <- app_assoc.
    + simpl. by rewrite Hline, Hlines.
    + etrans; [apply candidateOutcome_subseteq | exact Hsub].
Qed.

End Orchestrator.

(** C8. Every id of the registry gets exactly one terminal outcome, decided
    in the order no model, output exists, rendered, failed; the loop itself
    never throws; and an id whose render throws only adds its FAILED line,
    after which the remaining ids are processed on unchanged files. *)
Theorem render_loop_outcomes (env : Env) (twoD : JsSet.t) (ids : list string) (w : World) :
  (exists lines fs',
     forEach (renderCandidate env twoD) ids w
     = (Ok (), {| files := fs'; console := console w ++ lines |})
     /\ map outcomeOf lines = map Some (batchOutcomes env twoD (files w) ids)
     /\ map fst (batchOutcomes env twoD (files w) ids) = ids
     /\ length lines = length ids)
  /\ (forall before id after w1 model e,
        ids = before ++ id :: after ->
        forEach (renderCandidate env twoD) before w = (Ok (), w1) ->
        getItemModel env id = Some model ->
        files w1 !! outputPath env id = None ->
        renderItemToPng env id (renderSize twoD id) = Throw e ->
        forEach (renderCandidate env twoD) ids w
        = forEach (renderCandidate env twoD) after
            {| files := files w1; console := console w1 ++ [FailedToRender id e] |}).
Proof.
  split.
  - destruct (render_loop env twoD ids w) as (lines & fs' & Hrun & Hlines & _).
    exists lines, fs'. split; [done|]. split; [done|]. split; [apply batchOutcomes_ids|].
    apply (f_equal length) in Hlines. rewrite !length_map in Hlines.
    rewrite Hlines. rewrite <- (length_map fst). by rewrite batchOutcomes_ids.
  - intros before id after w1 model e -> Hbefore Hm Hf Hr.
    rewrite forEach_app, Hbefore. simpl. unfold mbind, M_bind.
    by rewrite (renderCandidate_render_throws env twoD id w1 model e).
Qed.

(** C9. A file already present at an id's output path makes the loop take
    the output-exists branch without writing; over the whole loop every file
    present before keeps its contents; the merger that [main] runs afterwards
    does overwrite a same-named file. *)
Theorem existing_output_not_overwritten (env : Env) (textures ids : list string)
    (w : World) (path : string) (old : list byte) :
  files w !! path = Some old ->
  let twoD := twoDItemIds (fetchTwoDItemIds textures) in
  (forall id model,
     getItemModel env id = Some model ->
     outputPath env id = path ->
     renderCandidate env twoD id w
     = (Ok (), {| files := files w; console := console w ++ [SkippingExists id] |}))
  /\ (exists w1,
        forEach (renderCandidate env twoD) ids w = (Ok (), w1)
        /\ files w1 !! path = Some old
        /\ forall sourceDir,
             main env textures ids sourceDir w = mergeHardcodedIcons env sourceDir w1)
  /\ (forall file bytes,
        path = pathJoin (outputDir env) file ->
        Js.endsWith ".png" (Js.toLowerCase file) = true ->
        writeFails env path = false ->
        mergeHardcodedIcons env
          (Some [{| name := file; isFile := true; contents := bytes |}]) w
        = (Ok (), {| files := <[path := bytes]> (files w);
                     console := console w ++ [Hardcoded path] |})).
Proof.
  intros Hold twoD. split; [|split].
  - intros id model Hm <-. by eapply renderCandidate_exists.
  - destruct (render_loop env twoD ids w) as (lines & fs' & Hrun & _ & Hsub).
    eexists. split; [exact Hrun|]. split.
    + simpl. by eapply lookup_weaken.
    + intros sourceDir. unfold main. fold twoD. unfold mbind, M_bind. by rewrite Hrun.
  - intros file bytes -> Hpng Hw.
    unfold mergeHardcodedIcons, tryCatch, mbind, M_bind, readdir. simpl.
    rewrite Hpng. unfold mbind, M_bind, writeFile. rewrite Hw. done.
Qed.

Lemma render_loop_outcomes_sample :
  let twoD := twoDItemIds (fetchTwoDItemIds Sample.textures) in
  let body := renderCandidate Sample.env twoD in
  (exists lines fs',
     forEach body Sample.ids Sample.world
     = (Ok (), {| files := fs'; console := lines |})
     /\ map outcomeOf lines
        = map Some [("air", SKIPPED_NO_MODEL); ("stick", SUCCEEDED);
                    ("bow", FAILED); ("apple", SKIPPED_EXISTS)])
  /\ forEach body Sample.ids Sample.world
     = forEach body ["apple"]
         {| files := files (forEach body ["air"; "stick"] Sample.world).2;
            console := console (forEach body ["air"; "stick"] Sample.world).2
                         ++ [FailedToRender "bow" (RenderError "unsupported special model")] |}.
Proof.
  intros twoD body.
  destruct (render_loop_outcomes Sample.env twoD Sample.ids Sample.world) as [Hall Hfail].
  split.
  - destruct Hall as (lines & fs' & Hrun & Hlines & _).
    exists lines, fs'. split; [exact Hrun|]. rewrite Hlines. vm_compute. reflexivity.
  - apply (Hfail ["air"; "stick"] "bow" ["apple"] _ (ItemModelFromJson JNull)).
    + reflexivity.
    + vm_compute. reflexivity.
    + vm_compute. reflexivity.
    + vm_compute. reflexivity.
    + vm_compute. reflexivity.
Defined.

Lemma existing_output_not_overwritten_sample :
  let twoD := twoDItemIds (fetchTwoDItemIds Sample.textures) in
  files Sample.world !! "output/apple.png" = Some [x89; x50; x4e; x47]
  /\ renderCandidate Sample.env twoD "apple" Sample.world
     = (Ok (), {| files := files Sample.world; console := [SkippingExists "apple"] |})
  /\ exists w1,
       forEach (renderCandidate Sample.env twoD) Sample.ids Sample.world = (Ok (), w1)
       /\ files w1 !! "output/apple.png" = Some [x89; x50; x4e; x47].
Proof.
  intros twoD.
  assert (Hold : files Sample.world !! "output/apple.png" = Some [x89; x50; x4e; x47])
    by apply lookup_insert_eq.
  destruct (existing_output_not_overwritten Sample.env Sample.textures Sample.ids
              Sample.world "output/apple.png" [x89; x50; x4e; x47] Hold)
    as (Hstep & (w1 & Hrun & Hkept & _) & _).
  split; [exact Hold|]. split.
  - apply (Hstep "apple" (ItemModelFromJson JNull)); [|reflexivity].
    vm_compute. reflexivity.
  - exists w1. split; [exact Hrun | exact Hkept].
Defined.

(** * Further properties of the code *)

(** ** JS [Map]s as entry lists *)

Section MapFacts.

Context {V : Type}.

Implicit Types (m : list (string * V)) (k : string) (v : V).

Lemma mapGet_mapSet k k' v m :
  mapGet k (mapSet k' v m) = if decide (k = k') then Some v else mapGet k m.
Proof.
  induction m as [|[k0 v0] m IH]; simpl.
  - by destruct (decide (k = k')).
  - destruct (decide (k' = k0)) as [->|Hne]; simpl.
    + by destruct (decide (k = k0)).
    + rewrite IH. destruct (decide (k = k0)) as [->|]; [|done].
      by rewrite decide_False by done.
Qed.

Lemma mapSet_keys k v m :
  map fst (mapSet k v m) = if decide (k ∈ map fst m) then map fst m else map fst m ++ [k].
Proof.
  induction m as [|[k0 v0] m IH]; simpl; [done|].
  destruct (decide (k = k0)) as [->|Hne]; simpl.
  - by rewrite decide_True by apply list_elem_of_here.
  - rewrite IH. destruct (decide (k ∈ map fst m)) as [Hin|Hnin].
    + by rewrite decide_True by by apply list_elem_of_further.
    + rewrite decide_False; [done|]. intros Hin. apply elem_of_cons in Hin as [?|?]; done.
Qed.

Lemma mapSet_keys_NoDup k v m : NoDup (map fst m) -> NoDup (map fst (mapSet k v m)).
Proof.
  intros Hnd. rewrite mapSet_keys. destruct (decide (k ∈ map fst m)) as [Hin|Hnin]; [done|].
  apply list.NoDup_app. split; [done|]. split; [|apply NoDup_singleton].
  intros x Hx Hx'. apply list_elem_of_singleton in Hx'. by subst.
Qed.

Lemma mapGet_app k m1 m2 :
  mapGet k (m1 ++ m2) = match mapGet k m1 with Some v => Some v | None => mapGet k m2 end.
Proof.
  induction m1 as [|[k0 v0] m1 IH]; simpl; [done|]. by destruct (decide (k = k0)).
Qed.

Lemma mapGet_None k m : mapGet k m = None <-> k ∉ map fst m.
Proof.
  induction m as [|[k0 v0] m IH]; simpl.
  - split; [intros _ H; by apply elem_of_nil in H | done].
  - rewrite not_elem_of_cons. destruct (decide (k = k0)) as [->|Hne]; [|tauto].
    split; [done | intros [? _]; done].
Qed.

Lemma mapGet_Some_elem k v m : mapGet k m = Some v -> (k, v) ∈ m.
Proof.
  induction m as [|[k0 v0] m IH]; simpl; [done|].
  destruct (decide (k = k0)) as [->|Hne].
  - intros [= ->]. apply list_elem_of_here.
  - intros H. by apply list_elem_of_further, IH.
Qed.

Lemma mapGet_NoDup_elem k v m : NoDup (map fst m) -> (k, v) ∈ m -> mapGet k m = Some v.
Proof.
  induction m as [|[k0 v0] m IH]; simpl; intros Hnd Hin.
  - by apply elem_of_nil in Hin.
  - apply list.NoDup_cons in Hnd as [Hk0 Hnd].
    apply elem_of_cons in Hin as [[= -> ->]|Hin].
    + by rewrite decide_True.
    + destruct (decide (k = k0)) as [->|Hne]; [|by apply IH].
      exfalso. apply Hk0. apply list_elem_of_In, in_map_iff.
      exists (k0, v). split; [done | by apply list_elem_of_In].
Qed.

End MapFacts.

(** After a loop of [set] calls, [get] returns the value of the last call
    for that key, or what the map held before. *)
Lemma mapGet_fold_set {A V : Type} (key : A -> string) (val : A -> V) (xs : list A) :
  forall (m0 : list (string * V)) (k : string),
    mapGet k (fold_left (fun m a => mapSet (key a) (val a) m) xs m0)
    = match mapGet k (reverse (map (fun a => (key a, val a)) xs)) with
      | Some v => Some v
      | None => mapGet k m0
      end.
Proof.
  induction xs as [|x xs IH]; intros m0 k; simpl; [done|].
  rewrite IH, reverse_cons, mapGet_app, mapGet_mapSet. simpl.
  destruct (mapGet k (reverse (map _ xs))); [done|]. by destruct (decide (k = key x)).
Qed.

(** A map built by [set] calls from an empty map has distinct keys. *)
Lemma fold_set_keys_NoDup {A V : Type} (key : A -> string) (val : A -> V) (xs : list A) :
  forall m0 : list (string * V),
    NoDup (map fst m0) ->
    NoDup (map fst (fold_left (fun m a => mapSet (key a) (val a) m) xs m0)).
Proof.
  induction xs as [|x xs IH]; intros m0 Hnd; simpl; [done|].
  apply IH. by apply mapSet_keys_NoDup.
Qed.

Lemma mapGet_map_values {V W : Type} (f : V -> W) (k : string) (m : list (string * V)) :
  mapGet k (map (fun kv => (kv.1, f kv.2)) m) = f <$> mapGet k m.
Proof.
  induction m as [|[k0 v0] m IH]; simpl; [done|]. by destruct (decide (k = k0)).
Qed.

Lemma reverse_map {A B : Type} (f : A -> B) (xs : list A) :
  reverse (map f xs) = map f (reverse xs).
Proof.
  induction xs as [|x xs IH]; simpl; [done|].
  by rewrite !reverse_cons, map_app, IH.
Qed.

Lemma mapGet_reverse_NoDup {V : Type} (k : string) (m : list (string * V)) :
  NoDup (map fst m) -> mapGet k (reverse m) = mapGet k m.
Proof.
  intros Hnd.
  assert (Hrev : NoDup (map fst (reverse m))).
  { rewrite <- reverse_map. by rewrite reverse_Permutation. }
  destruct (mapGet k m) as [v|] eqn:Hget.
  - apply mapGet_NoDup_elem; [done|]. apply elem_of_reverse. by apply mapGet_Some_elem.
  - apply mapGet_None. apply mapGet_None in Hget.
    rewrite <- reverse_map. by rewrite elem_of_reverse.
Qed.

Lemma fold_set_NoDup {A V : Type} (key : A -> string) (val : A -> V) (xs : list A) :
  forall m0 : list (string * V),
    NoDup (map fst m0 ++ map key xs) ->
    fold_left (fun m a => mapSet (key a) (val a) m) xs m0
    = m0 ++ map (fun a => (key a, val a)) xs.
Proof.
  induction xs as [|x xs IH]; intros m0 Hnd; simpl.
  - by rewrite app_nil_r.
  - assert (Hk : key x ∉ map fst m0).
    { apply list.NoDup_app in Hnd as (_ & Hdisj & _).
      intros Hin. apply (Hdisj _ Hin). apply list_elem_of_here. }
    rewrite mapSet_fresh by done.
    rewrite IH; [by rewrite <- app_assoc|].
    rewrite map_app. simpl. by rewrite <- app_assoc.
Qed.

Lemma NoDup_map_canonicalId {A : Type} (key : A -> string) (xs : list A) :
  NoDup (map key xs) -> NoDup (map (fun a => canonicalId (key a)) xs).
Proof.
  induction xs as [|x xs IH]; simpl; intros Hnd; [done|].
  apply list.NoDup_cons in Hnd as [Hx Hnd]. apply list.NoDup_cons. split; [|by apply IH].
  intros Hin. apply Hx. apply list_elem_of_In, in_map_iff in Hin as (y & Heq & Hy).
  apply canonicalId_inj in Heq. rewrite <- Heq.
  apply list_elem_of_In, in_map_iff. by exists y.
Qed.

(** ** Item components, from the fetched JSON to the provider lookup *)

Section ItemComponents.

Variable data : list (string * ComponentsJson).

Let normalised (kc : string * ComponentsJson) : list (string * JsValue) :=
  mapOfEntries (rawComponents kc.2).

Lemma fetchItemComponents_fold :
  fetchItemComponents data
  = fold_left (fun m kc => mapSet (canonicalId kc.1) (normalised kc) m) data [].
Proof.
  unfold fetchItemComponents. generalize (@nil (string * list (string * JsValue))).
  induction data as [|[k comps] rest IH]; intros result; simpl; [done|].
  rewrite IH. by destruct comps.
Qed.

Lemma fetchItemComponents_keys_NoDup : NoDup (map fst (fetchItemComponents data)).
Proof. rewrite fetchItemComponents_fold. apply fold_set_keys_NoDup. apply NoDup_nil_2. Qed.

Lemma fetchItemComponents_get (k : string) (comps : ComponentsJson) :
  NoDup (map fst data) ->
  (k, comps) ∈ data ->
  mapGet (canonicalId k) (fetchItemComponents data) = Some (mapOfEntries (rawComponents comps)).
Proof.
  intros Hnd Hin. rewrite fetchItemComponents_fold, mapGet_fold_set. simpl.
  rewrite mapGet_reverse_NoDup.
  2:{ rewrite map_map. simpl. by apply (NoDup_map_canonicalId fst). }
  rewrite (mapGet_NoDup_elem _ (normalised (k, comps))); [done| |].
  - rewrite map_map. simpl. by apply (NoDup_map_canonicalId fst).
  - apply list_elem_of_In, in_map_iff. exists (k, comps). split; [done|].
    by apply list_elem_of_In.
Qed.

Lemma fetchItemComponents_get_None (id : string) :
  (forall k, k ∈ map fst data -> canonicalId k <> id) ->
  mapGet id (fetchItemComponents data) = None.
Proof.
  intros Hfresh. rewrite fetchItemComponents_fold, mapGet_fold_set. simpl.
  replace (mapGet id (reverse _)) with (@None (list (string * JsValue))); [done|].
  symmetry. apply mapGet_None. rewrite <- reverse_map, elem_of_reverse, map_map. simpl.
  intros Hin. apply list_elem_of_In, in_map_iff in Hin as ([k comps] & Heq & Hkc).
  apply (Hfresh k); [|done]. apply list_elem_of_In, in_map_iff. by exists (k, comps).
Qed.

End ItemComponents.

Lemma convertItemComponents_get (source : list (string * list (string * JsValue)))
    (id : string) :
  NoDup (map fst source) ->
  mapGet id (convertItemComponents source)
  = (fun components =>
       fold_left (fun mapped cv => mapSet cv.1 (jsonToNbt cv.2) mapped) components [])
      <$> mapGet id source.
Proof.
  intros Hnd. unfold convertItemComponents.
  rewrite (mapGet_fold_set fst _ source [] id). simpl.
  rewrite mapGet_reverse_NoDup by (by rewrite map_map).
  rewrite (mapGet_map_values
             (fun components =>
                fold_left (fun mapped cv => mapSet cv.1 (jsonToNbt cv.2) mapped) components [])).
  by destruct (mapGet id source).
Qed.

Lemma map_pair_eta {V : Type} (m : list (string * V)) : map (fun kv => (kv.1, kv.2)) m = m.
Proof. induction m as [|[k v] m IH]; simpl; [done|]. by rewrite IH. Qed.

Lemma mapOfEntries_get {V : Type} (k : string) (entries : list (string * V)) :
  mapGet k (mapOfEntries entries) = mapGet k (reverse entries).
Proof.
  unfold mapOfEntries. rewrite (mapGet_fold_set fst snd entries [] k). simpl.
  rewrite map_pair_eta. by destruct (mapGet k (reverse entries)).
Qed.

(** X1. From the fetched summary to the provider: for an item of the
    summary, the component the renderer is handed under a component id is
    the conversion of the last raw value recorded for that id, whichever of
    the two encodings the item used; a component id that was never recorded
    is absent. *)
Theorem item_components_lookup (data : list (string * ComponentsJson))
    (k : string) (comps : ComponentsJson) (c : string) :
  NoDup (map fst data) ->
  (k, comps) ∈ data ->
  mapGet c (getItemComponents (convertItemComponents (fetchItemComponents data))
                              (canonicalId k))
  = jsonToNbt <$> mapGet c (reverse (rawComponents comps)).
Proof.
  intros Hnd Hin. unfold getItemComponents.
  rewrite convertItemComponents_get by apply fetchItemComponents_keys_NoDup.
  rewrite (fetchItemComponents_get data k comps Hnd Hin). simpl.
  rewrite (mapGet_fold_set fst (fun cv => jsonToNbt cv.2)). simpl.
  rewrite reverse_map, (mapGet_map_values jsonToNbt).
  rewrite mapGet_reverse_NoDup.
  2:{ unfold mapOfEntries. apply fold_set_keys_NoDup. apply NoDup_nil_2. }
  rewrite mapOfEntries_get. by destruct (mapGet c (reverse (rawComponents comps))).
Qed.

Lemma item_components_lookup_array :
  let data := [("stick", ComponentsRecord [("max_stack_size", JNumber (numberOfZ 64))]);
               ("apple", ComponentsArray [("rarity", JString "common");
                                          ("food", JObject []);
                                          ("rarity", JString "rare")])] in
  NoDup (map fst data)
  /\ mapGet "rarity" (getItemComponents (convertItemComponents (fetchItemComponents data))
                                        "minecraft:apple")
     = Some (NbtString "rare").
Proof.
  intros data.
  assert (Hnd : NoDup (map fst data)).
  { apply (bool_decide_unpack _). vm_compute. exact I. }
  split; [exact Hnd|].
  exact (item_components_lookup data "apple" _ "rarity" Hnd
           (list_elem_of_further _ _ _ (list_elem_of_here _ _))).
Defined.

(** X2. The component lookup never fails: for an identifier that is not the
    canonical id of any item of the summary it returns the empty mapping. *)
Theorem item_components_unknown_id (data : list (string * ComponentsJson)) (id : string) :
  (forall k, k ∈ map fst data -> canonicalId k <> id) ->
  getItemComponents (convertItemComponents (fetchItemComponents data)) id = [].
Proof.
  intros Hfresh. unfold getItemComponents.
  rewrite convertItemComponents_get by apply fetchItemComponents_keys_NoDup.
  by rewrite fetchItemComponents_get_None.
Qed.

Lemma item_components_unknown_id_bare :
  getItemComponents
    (convertItemComponents
       (fetchItemComponents [("stick", ComponentsRecord [("rarity", JString "common")])]))
    "stick"
  = [].
Proof.
  apply item_components_unknown_id. intros k Hk.
  apply list_elem_of_singleton in Hk. subst k. discriminate.
Defined.

(** X3. On a source whose maps are well formed (distinct item ids, distinct
    component ids per item), [convertItemComponents] keeps the items and
    each item's components in their order and converts every value. *)
Theorem convertItemComponents_order (source : list (string * list (string * JsValue))) :
  NoDup (map fst source) ->
  Forall (fun ic => NoDup (map fst ic.2)) source ->
  convertItemComponents source
  = map (fun ic => (ic.1, map (fun cv => (cv.1, jsonToNbt cv.2)) ic.2)) source.
Proof.
  intros Hnd Hinner. unfold convertItemComponents.
  rewrite (fold_set_NoDup fst _ source []) by done. simpl.
  induction Hinner as [|[id components] rest Hcomp _ IH]; simpl; [done|].
  rewrite IH by (by apply list.NoDup_cons in Hnd as [_ ?]).
  do 2 f_equal. by rewrite (fold_set_NoDup fst (fun cv => jsonToNbt cv.2) components []).
Qed.

Lemma convertItemComponents_order_sample :
  convertItemComponents
    [("minecraft:stick", [("max_stack_size", JNumber (numberOfZ 64));
                          ("rarity", JString "common")])]
  = [("minecraft:stick", [("max_stack_size", NbtInt (numberOfZ 64));
                          ("rarity", NbtString "common")])].
Proof.
  apply (convertItemComponents_order
           [("minecraft:stick", [("max_stack_size", JNumber (numberOfZ 64));
                                 ("rarity", JString "common")])]).
  - apply (bool_decide_unpack _). vm_compute. exact I.
  - constructor; [|constructor]. apply (bool_decide_unpack _). vm_compute. exact I.
Defined.

(** ** Shape of converted tags *)

Lemma JsValue_nested_ind (P : JsValue -> Prop) :
  (forall s, P (JString s)) ->
  (forall x, P (JNumber x)) ->
  (forall b, P (JBoolean b)) ->
  (forall items, Forall P items -> P (JArray items)) ->
  (forall entries, Forall (fun kv => P kv.2) entries -> P (JObject entries)) ->
  P JNull -> P JUndefined -> P JOther ->
  forall value, P value.
Proof.
  intros Hs Hn Hb Ha Ho Hnull Hundef Hother.
  fix IH 1.
  intros [s|x|b|items|entries| | |];
    [apply Hs | apply Hn | apply Hb | | | exact Hnull | exact Hundef | exact Hother].
  - apply Ha. induction items as [|item items IHitems]; constructor; [apply IH | exact IHitems].
  - apply Ho. induction entries as [|[k v] entries IHentries]; constructor;
      [apply IH | exact IHentries].
Qed.

Lemma forallb_mapSet {V : Type} (f : string * V -> bool) (k : string) (v : V)
    (m : list (string * V)) :
  f (k, v) = true -> forallb f m = true -> forallb f (mapSet k v m) = true.
Proof.
  intros Hv. induction m as [|[k0 v0] m IH]; simpl; [by rewrite Hv|].
  intros [H0 Hm]%andb_true_iff. destruct (decide (k = k0)); simpl.
  - by rewrite Hv, Hm.
  - by rewrite H0, IH.
Qed.

Lemma forallb_mapOfEntries {V : Type} (f : string * V -> bool) (entries : list (string * V)) :
  forallb f entries = true -> forallb f (mapOfEntries entries) = true.
Proof.
  unfold mapOfEntries. generalize (eq_refl : forallb f [] = true).
  generalize (@nil (string * V)).
  induction entries as [|[k v] entries IH]; intros m Hm; simpl; [done|].
  intros [Hv Hrest]%andb_true_iff. apply IH; [|done]. by apply forallb_mapSet.
Qed.

(** X4. Whatever the raw value, at every depth of the converted tree a byte
    tag holds 0 or 1, an integer tag holds an integral number and a double
    tag holds a number that is not integral. *)
Theorem jsonToNbt_tagShape (value : JsValue) : tagShape (jsonToNbt value) = true.
Proof.
  induction value as [s|x|b|items IH|entries IH| | |] using JsValue_nested_ind;
    try done.
  - simpl. by destruct (isInteger x) eqn:Hx; simpl; rewrite Hx.
  - by destruct b.
  - simpl. induction IH as [|item items Hitem _ IHitems]; simpl; [done|].
    by rewrite Hitem, IHitems.
  - simpl. apply forallb_mapOfEntries.
    induction IH as [|[k v] entries Hv _ IHentries]; simpl; [done|].
    simpl in Hv. by rewrite Hv, IHentries.
Qed.

(** ** Item models *)

Lemma loadItemModels_fold (definitions : list (string * JsValue)) (id : string) :
  forall itemModels : gmap string ItemModel,
    NoDup (map fst definitions) ->
    fold_left
      (fun itemModels entry =>
         let '(id, definition) := entry in
         if isRecord definition && isRecord (modelOf definition)
         then <[canonicalId id := ItemModelFromJson (modelOf definition)]> itemModels
         else itemModels)
      definitions itemModels !! canonicalId id
    = match mapGet id definitions with
      | Some definition =>
          if isRecord definition && isRecord (modelOf definition)
          then Some (ItemModelFromJson (modelOf definition))
          else itemModels !! canonicalId id
      | None => itemModels !! canonicalId id
      end.
Proof.
  induction definitions as [|[k def] rest IH]; intros itemModels Hnd; [done|].
  simpl in Hnd. apply list.NoDup_cons in Hnd as [Hk Hnd].
  cbn [fold_left mapGet]. rewrite IH by done.
  destruct (decide (id = k)) as [->|Hne].
  - apply mapGet_None in Hk. rewrite Hk.
    destruct (isRecord def && isRecord (modelOf def)); [apply lookup_insert_eq | done].
  - assert (Hins : forall model,
              <[canonicalId k := model]> itemModels !! canonicalId id
              = itemModels !! canonicalId id).
    { intros model. apply lookup_insert_ne. intros Heq. by apply canonicalId_inj in Heq. }
    destruct (isRecord def && isRecord (modelOf def)); [|done].
    rewrite Hins. by destruct (mapGet id rest).
Qed.

(** X5. An id has an item model exactly when its definition passes
    [isRecord] and so does its [model] property, that is when the definition
    is an object whose [model] is an object or an array; an id without a
    definition, or whose definition lacks such a [model], has none. *)
Theorem loadItemModels_lookup (definitions : list (string * JsValue)) (id : string) :
  NoDup (map fst definitions) ->
  loadItemModels definitions !! canonicalId id
  = match mapGet id definitions with
    | Some definition =>
        if isRecord definition && isRecord (modelOf definition)
        then Some (ItemModelFromJson (modelOf definition))
        else None
    | None => None
    end.
Proof.
  intros Hnd. unfold loadItemModels. rewrite loadItemModels_fold by done.
  rewrite lookup_empty. done.
Qed.

Lemma loadItemModels_lookup_sample :
  let definitions :=
    [("stick", JObject [("model", JObject [("type", JString "minecraft:model")])]);
     ("air", JObject [("oversized_in_gui", JBoolean false)]);
     ("bad", JString "model")] in
  NoDup (map fst definitions)
  /\ loadItemModels definitions !! "minecraft:stick"
     = Some (ItemModelFromJson (JObject [("type", JString "minecraft:model")]))
  /\ loadItemModels definitions !! "minecraft:air" = None
  /\ loadItemModels definitions !! "minecraft:bad" = None
  /\ loadItemModels definitions !! "minecraft:bow" = None.
Proof.
  intros definitions.
  assert (Hnd : NoDup (map fst definitions)).
  { apply (bool_decide_unpack _). vm_compute. exact I. }
  split; [exact Hnd|].
  split; [exact (loadItemModels_lookup definitions "stick" Hnd)|].
  split; [exact (loadItemModels_lookup definitions "air" Hnd)|].
  split; [exact (loadItemModels_lookup definitions "bad" Hnd)|].
  exact (loadItemModels_lookup definitions "bow" Hnd).
Defined.

(** X6. With the item models loaded from the definitions, an id whose
    definition is missing or has no nested model is skipped by the render
    loop: one "no item model" line, no file touched, no exception. *)
Theorem renderCandidate_without_model (env : Env) (twoD : JsSet.t)
    (definitions : list (string * JsValue)) (id : string) (w : World) :
  NoDup (map fst definitions) ->
  itemModels env = loadItemModels definitions ->
  match mapGet id definitions with
  | Some definition => isRecord definition && isRecord (modelOf definition) = false
  | None => True
  end ->
  renderCandidate env twoD id w
  = (Ok (), {| files := files w; console := console w ++ [SkippingNoModel id] |}).
Proof.
  intros Hnd Henv Hdef. apply renderCandidate_no_model.
  unfold getItemModel. rewrite Henv. unfold loadItemModels.
  rewrite loadItemModels_fold by done. rewrite lookup_empty.
  destruct (mapGet id definitions) as [def|]; [|done]. by rewrite Hdef.
Qed.

Lemma renderCandidate_without_model_air :
  let definitions := [("air", JObject [("oversized_in_gui", JBoolean false)])] in
  let env := {| itemModels := loadItemModels definitions;
                drawItem := fun _ _ => Ok [];
                encodePng := fun _ pixels => Ok pixels;
                writeFails := fun _ => false;
                outputDir := "output" |} in
  renderCandidate env [] "air" {| files := ∅; console := [] |}
  = (Ok (), {| files := ∅; console := [SkippingNoModel "air"] |}).
Proof.
  intros definitions env.
  apply (renderCandidate_without_model env [] definitions "air").
  - apply (bool_decide_unpack _). vm_compute. exact I.
  - reflexivity.
  - reflexivity.
Defined.

(** ** Texture atlas: domain and block textures *)

Lemma atlas_insert_keeps (w h : Z) (textures : list (string * RawUV)) (id : string) :
  forall idMap : gmap string UV,
    is_Some (idMap !! id) ->
    is_Some (fold_left
               (fun idMap entry =>
                  let '(rawId, tuple) := entry in
                  <[canonicalId rawId := atlasUV w h rawId tuple]> idMap)
               textures idMap !! id).
Proof.
  induction textures as [|[k t] textures IH]; intros idMap Hsome; [done|].
  cbn [fold_left]. apply IH.
  destruct (decide (canonicalId k = id)) as [<-|Hne].
  - rewrite lookup_insert_eq. by eexists.
  - by rewrite lookup_insert_ne.
Qed.

(** X7. The atlas knows exactly the canonical ids of the table's keys: a
    lookup succeeds for [minecraft:] followed by a key of the table and for
    nothing else. *)
Theorem loadBlockAtlas_domain (image : Image) (textures : list (string * RawUV))
    (id : string) :
  is_Some (loadBlockAtlas image textures !! id)
  <-> exists rawId, rawId ∈ map fst textures /\ id = canonicalId rawId.
Proof.
  unfold loadBlockAtlas. split.
  - intros [uv Hlk]. apply atlas_fold_origin in Hlk as [Hlk|(rawId & tuple & Hin & -> & _)].
    + by rewrite lookup_empty in Hlk.
    + exists rawId. split; [|done]. apply list_elem_of_In, in_map_iff.
      exists (rawId, tuple). split; [done | by apply list_elem_of_In].
  - intros (rawId & Hin & ->).
    apply list_elem_of_In, in_map_iff in Hin as ([k t] & Heq & Hin). simpl in Heq. subst k.
    apply list_elem_of_In in Hin. generalize (∅ : gmap string UV).
    induction textures as [|[k0 t0] textures IH]; intros idMap.
    + by apply elem_of_nil in Hin.
    + cbn [fold_left]. apply elem_of_cons in Hin as [[= <- <-]|Hin].
      * apply atlas_insert_keeps. rewrite lookup_insert_eq. by eexists.
      * by apply IH.
Qed.

(** X8. A [block/] texture always gets a rectangle that is as tall as it is
    wide in source pixels: both extents are [du], whatever [dv] the table
    records. *)
Theorem loadBlockAtlas_block_square (image : Image) (textures : list (string * RawUV))
    (rawId : string) (u v du dv : Z) :
  NoDup (map fst textures) ->
  (rawId, (u, v, du, dv)) ∈ textures ->
  Js.startsWith "block/" rawId = true ->
  exists u0 v0 u1 v1,
    loadBlockAtlas image textures !! canonicalId rawId = Some (u0, v0, u1, v1)
    /\ ((u1 - u0) * Qc_of_Z (upperPowerOfTwo (width image)) = Qc_of_Z du)%Qc
    /\ ((v1 - v0) * Qc_of_Z (upperPowerOfTwo (height image)) = Qc_of_Z du)%Qc.
Proof.
  intros Hnd Hin Hblock. unfold loadBlockAtlas.
  rewrite (atlas_fold_lookup _ _ textures rawId (u, v, du, dv)) by done.
  rewrite atlasUV_effectiveDv. unfold effectiveDv. rewrite Hblock. simpl.
  assert (Hextent : forall a d n, (0 < n)%Z ->
            ((numDiv (a + d) n - numDiv a n) * Qc_of_Z n = Qc_of_Z d)%Qc).
  { intros a d n Hn. rewrite numDiv_add. unfold numDiv, Qcdiv.
    assert (Hn0 : Qc_of_Z n <> 0%Qc).
    { rewrite <- Z2Qc_inj_0. intros Heq. apply Z2Qc_inj in Heq. lia. }
    field. exact Hn0. }
  do 4 eexists. split; [reflexivity|]. split.
  - apply Hextent, upperPowerOfTwo_pos.
  - destruct (du =? dv)%Z eqn:Heq; simpl.
    + apply Z.eqb_eq in Heq. subst dv. apply Hextent, upperPowerOfTwo_pos.
    + apply Hextent, upperPowerOfTwo_pos.
Qed.

Lemma loadBlockAtlas_block_square_lava :
  exists u0 v0 u1 v1,
    loadBlockAtlas {| width := 1024%Z; height := 512%Z |}
      [("block/lava_flow", (0, 32, 16, 64)%Z)] !! "minecraft:block/lava_flow"
    = Some (u0, v0, u1, v1)
    /\ ((u1 - u0) * Qc_of_Z 1024 = Qc_of_Z 16)%Qc
    /\ ((v1 - v0) * Qc_of_Z 512 = Qc_of_Z 16)%Qc.
Proof.
  apply (loadBlockAtlas_block_square {| width := 1024%Z; height := 512%Z |}
           [("block/lava_flow", (0, 32, 16, 64)%Z)] "block/lava_flow" 0%Z 32%Z 16%Z 64%Z).
  - apply (bool_decide_unpack _). vm_compute. exact I.
  - apply list_elem_of_here.
  - reflexivity.
Defined.

(** ** Prefix combinations: edge cases and size *)

Lemma generate_combo_ofList (bases : list string) (groups : list (list string)) :
  generate {| combo_bases := bases; prefixGroups := groups |}
  = JsSet.ofList (specPrefixCombination bases groups).
Proof. unfold generate, PrefixComboRule_generate. simpl. apply generate_addAll. Qed.

Lemma flat_map_nil {A B : Type} (xs : list A) : flat_map (fun _ : A => @nil B) xs = [].
Proof. by induction xs. Qed.

Lemma cartesian_empty_group (groups : list (list string)) :
  [] ∈ groups -> cartesian groups = [].
Proof.
  induction groups as [|group groups IH]; intros Hin; [by apply elem_of_nil in Hin|].
  apply elem_of_cons in Hin as [<-|Hin]; simpl; [done|].
  rewrite IH by done. simpl. apply flat_map_nil.
Qed.

(** X9. One empty token group empties the whole rule: with a group that
    offers no token, not even the empty one, no id is generated for any
    base. *)
Theorem PrefixComboRule_empty_group (bases : list string) (groups : list (list string)) :
  [] ∈ groups ->
  ruleGenerate (mkRule {| combo_bases := bases; prefixGroups := groups |}) = [].
Proof.
  intros Hin. unfold ruleGenerate. rewrite generate_combo_ofList. unfold specPrefixCombination.
  rewrite cartesian_empty_group by done. simpl. by rewrite flat_map_nil.
Qed.

Lemma PrefixComboRule_empty_group_copper :
  ruleGenerate (mkRule {| combo_bases := ["copper_door"; "copper_bars"];
                          prefixGroups := [[""; "waxed"]; []] |}) = [].
Proof.
  apply PrefixComboRule_empty_group.
  apply list_elem_of_further, list_elem_of_here.
Defined.

Lemma specComboId_all_empty (base : string) (n : nat) :
  specComboId base (replicate n "") = base.
Proof.
  unfold specComboId.
  replace (forallb (fun t => String.eqb t "") (replicate n "")) with true; [done|].
  symmetry. by induction n.
Qed.

(** X10. When every group offers the empty token, every base is generated
    bare, next to its prefixed variants. *)
Theorem PrefixComboRule_bare_base (bases : list string) (groups : list (list string))
    (base : string) :
  Forall (fun group => "" ∈ group) groups ->
  base ∈ bases ->
  base ∈ ruleGenerate (mkRule {| combo_bases := bases; prefixGroups := groups |}).
Proof.
  intros Hgroups Hbase. unfold ruleGenerate.
  rewrite generate_combo_ofList, elem_of_ofList.
  apply elem_of_specPrefixCombination.
  exists base, (replicate (length groups) ""). split; [done|]. split.
  - induction Hgroups as [|group groups Hgroup _ IH]; simpl; by constructor.
  - by rewrite specComboId_all_empty.
Qed.

Lemma PrefixComboRule_bare_base_copper :
  "copper_chain" ∈ ruleGenerate (mkRule {| combo_bases := COPPER_BASES;
                                           prefixGroups := [WAX_STATES; OXIDATION_STATES] |}).
Proof.
  apply PrefixComboRule_bare_base.
  - repeat constructor.
  - apply list_elem_of_further, list_elem_of_here.
Defined.

Lemma length_addAll_le (xs : list string) :
  forall s : JsSet.t, (length (JsSet.addAll xs s) <= length s + length xs)%nat.
Proof.
  induction xs as [|x xs IH]; intros s; simpl; [lia|].
  etrans; [apply IH|]. unfold JsSet.add.
  destruct (decide (x ∈ s)); [lia|]. rewrite length_app. simpl. lia.
Qed.

Lemma length_flat_map_const {A B : Type} (f : A -> list B) (n : nat) (xs : list A) :
  (forall x, length (f x) = n) -> length (flat_map f xs) = (length xs * n)%nat.
Proof.
  intros Hf. induction xs as [|x xs IH]; simpl; [done|].
  by rewrite length_app, Hf, IH.
Qed.

Lemma length_cartesian (groups : list (list string)) :
  length (cartesian groups) = fold_right Nat.mul 1%nat (map length groups).
Proof.
  induction groups as [|group groups IH]; simpl; [done|].
  rewrite (length_flat_map_const _ (length (cartesian groups))).
  - by rewrite IH.
  - intros p. apply length_map.
Qed.

(** X11. The rule never generates more ids than there are combinations: at
    most the number of bases times the product of the group sizes. *)
Theorem PrefixComboRule_size (bases : list string) (groups : list (list string)) :
  (length (ruleGenerate (mkRule {| combo_bases := bases; prefixGroups := groups |}))
   <= length bases * fold_right Nat.mul 1%nat (map length groups))%nat.
Proof.
  unfold ruleGenerate. rewrite generate_combo_ofList. unfold JsSet.ofList.
  etrans; [apply length_addAll_le|]. simpl. unfold specPrefixCombination.
  rewrite (length_flat_map_const _ (length (cartesian groups))).
  - by rewrite length_cartesian.
  - intros base. apply length_map.
Qed.

(** ** Vertical flip: lengths, short and long buffers *)

Lemma typedArraySet_length (target source out : list byte) (offset : nat) :
  typedArraySet target source offset = Ok out -> length out = length target.
Proof.
  unfold typedArraySet. destruct (decide _) as [Hfit|]; [|done].
  intros [= <-]. rewrite !length_app, length_take, length_drop. lia.
Qed.

Lemma foldResult_invariant {A S : Type} (P : S -> Prop) (body : S -> A -> Result S)
    (xs : list A) :
  (forall acc x acc', P acc -> body acc x = Ok acc' -> P acc') ->
  forall acc out, P acc -> foldResult body xs acc = Ok out -> P out.
Proof.
  intros Hbody. induction xs as [|x xs IH]; intros acc out Hacc; simpl.
  - by intros [= <-].
  - destruct (body acc x) as [acc'|e] eqn:Hstep; simpl; [|done].
    apply IH. by eapply Hbody.
Qed.

(** X12. Whatever the buffer, width and height, a flip that returns gives a
    buffer of exactly the input's length. *)
Theorem flipYAxis_length (data out : list byte) (width height : nat) :
  flipYAxis data width height = Ok out -> length out = length data.
Proof.
  unfold flipYAxis. cbv zeta. intros Hrun.
  eapply (foldResult_invariant (fun result => length result = length data)) in Hrun;
    [done| |apply length_replicate].
  intros acc row acc' Hacc Hset. cbv beta in Hset.
  apply typedArraySet_length in Hset. by rewrite Hset.
Qed.

Lemma flipYAxis_length_3x1 :
  flipYAxis [x01; x02; x03; x04; x05] 1 1 = Ok [x01; x02; x03; x04; x00]
  /\ length [x01; x02; x03; x04; x00] = length [x01; x02; x03; x04; x05].
Proof.
  split; [reflexivity|].
  exact (flipYAxis_length [x01; x02; x03; x04; x05] [x01; x02; x03; x04; x00] 1 1 eq_refl).
Defined.

(** X13. A buffer shorter than [width * height * 4] bytes makes the flip of
    an image of at least two rows throw a [RangeError] (the first row
    already lands past the end of the result). *)
Theorem flipYAxis_short_buffer (data : list byte) (width height : nat) :
  (0 < width)%nat -> (2 <= height)%nat ->
  (length data < width * height * 4)%nat ->
  flipYAxis data width height = Throw RangeError.
Proof.
  intros Hw Hh Hlen. unfold flipYAxis. cbv zeta.
  destruct height as [|height]; [lia|]. cbn [seq foldResult]. cbv beta.
  match goal with
  | |- ?first ≫= _ = _ => assert (Hfirst : first = Throw RangeError)
  end.
  { unfold typedArraySet. rewrite decide_False; [done|].
    unfold subarray. rewrite length_replicate, length_take, length_drop. nia. }
  by rewrite Hfirst.
Qed.

Lemma flipYAxis_short_buffer_2x2 :
  flipYAxis [x01; x02; x03; x04; x05; x06; x07; x08; x09; x0a; x0b; x0c] 2 2
  = Throw RangeError.
Proof. apply flipYAxis_short_buffer; simpl; lia. Defined.

Lemma flip_loop_tail (width : nat) (rows : list (list byte)) (extra : list byte) :
  Forall (fun row => length row = (width * 4)%nat) rows ->
  forall todo done,
    rows = done ++ todo ->
    foldResult
      (fun result row =>
         let srcStart := (row * (width * 4))%nat in
         let destStart := ((length rows - row - 1) * (width * 4))%nat in
         typedArraySet result
           (subarray (concat rows ++ extra) srcStart (srcStart + width * 4)) destStart)
      (seq (length done) (length todo))
      (replicate (length todo * (width * 4)) x00 ++ concat (reverse done)
         ++ replicate (length extra) x00)
    = Ok (concat (reverse rows) ++ replicate (length extra) x00).
Proof.
  intros Hrows. set (n := (width * 4)%nat) in *.
  set (body := fun (result : list byte) (row : nat) => _).
  induction todo as [|row todo IH]; intros done Hsplit.
  - simpl. by rewrite Hsplit, app_nil_r.
  - cbn [length seq foldResult].
    assert (Hlen : length row = n).
    { pose proof Hrows as Hall. rewrite Hsplit in Hall.
      apply Forall_app in Hall as [_ Hall]. by apply Forall_inv in Hall. }
    assert (Hstep :
      body (replicate (S (length todo) * n) x00 ++ concat (reverse done)
              ++ replicate (length extra) x00) (length done)
      = Ok (replicate (length todo * n) x00 ++ concat (reverse (done ++ [row]))
              ++ replicate (length extra) x00)).
    { unfold body. cbv zeta.
      assert (Hrow : subarray (concat rows ++ extra) (length done * n) (length done * n + n)
                     = row).
      { unfold subarray. replace (length done * n + n - length done * n)%nat with n by lia.
        assert (Hlk : rows !! length done = Some row).
        { rewrite Hsplit. by rewrite lookup_app_r, Nat.sub_diag by done. }
        pose proof (row_of_concat n rows Hrows (length done) row Hlk) as Hcut.
        assert (Hroom : (length done * n + n <= length (concat rows))%nat).
        { rewrite (length_concat_rows n rows Hrows), Hsplit, length_app. simpl. nia. }
        rewrite drop_app_le by lia.
        rewrite take_app_le by (rewrite length_drop; lia). exact Hcut. }
      rewrite Hrow.
      assert (Hdest : (length rows - length done - 1 = length todo)%nat).
      { rewrite Hsplit, length_app. simpl. lia. }
      rewrite Hdest. unfold typedArraySet. rewrite decide_True.
      2:{ rewrite length_app, length_replicate, Hlen. lia. }
      rewrite take_app_le by (rewrite length_replicate; lia).
      rewrite take_replicate, Nat.min_l by lia.
      rewrite drop_app_length' by (rewrite length_replicate, Hlen; lia).
      rewrite reverse_snoc. simpl. by rewrite <- app_assoc. }
    rewrite Hstep. simpl.
    replace (S (length done)) with (length (done ++ [row]))
      by (rewrite length_app; simpl; lia).
    apply IH. by rewrite <- app_assoc.
Qed.

Lemma flipYAxis_with_tail (image extra : list byte) (width height : nat) :
  length image = (width * height * 4)%nat ->
  exists flipped,
    flipYAxis image width height = Ok flipped
    /\ length flipped = length image
    /\ flipYAxis (image ++ extra) width height
       = Ok (flipped ++ replicate (length extra) x00).
Proof.
  intros Hlen.
  assert (Hlen' : length image = (height * (width * 4))%nat) by lia.
  set (rows := rowsOf (width * 4) height image).
  assert (Hrows : Forall (fun row => length row = (width * 4)%nat) rows)
    by by apply rowLength_rowsOf.
  assert (Hh : length rows = height) by apply length_rowsOf.
  assert (Himage : image = concat rows) by (symmetry; by apply concat_rowsOf).
  exists (concat (reverse rows)). split; [|split].
  - rewrite Himage at 1. rewrite <- Hh. by apply flipYAxis_concat.
  - rewrite (length_concat_rows (width * 4)) by by apply Forall_reverse.
    rewrite length_reverse. lia.
  - rewrite Himage, <- Hh. unfold flipYAxis. cbv zeta.
    rewrite length_app, (length_concat_rows (width * 4)) by done.
    rewrite replicate_add.
    pose proof (flip_loop_tail width rows extra Hrows rows [] eq_refl) as Hloop.
    simpl in Hloop. exact Hloop.
Qed.

(** X14. Bytes beyond the first [width * height * 4] are not copied: the
    image part is flipped as usual and the rest of the result stays zero. *)
Theorem flipYAxis_trailing_bytes (image extra : list byte) (width height : nat) :
  length image = (width * height * 4)%nat ->
  exists flipped,
    flipYAxis image width height = Ok flipped
    /\ flipYAxis (image ++ extra) width height
       = Ok (flipped ++ replicate (length extra) x00).
Proof.
  intros Hlen.
  destruct (flipYAxis_with_tail image extra width height Hlen) as (flipped & H1 & _ & H2).
  by exists flipped.
Qed.

Lemma flipYAxis_trailing_bytes_1x2 :
  exists flipped,
    flipYAxis [x01; x02; x03; x04; x05; x06; x07; x08] 1 2 = Ok flipped
    /\ flipYAxis ([x01; x02; x03; x04; x05; x06; x07; x08] ++ [xaa; xbb]) 1 2
       = Ok (flipped ++ replicate 2 x00).
Proof.
  exact (flipYAxis_trailing_bytes [x01; x02; x03; x04; x05; x06; x07; x08] [xaa; xbb]
           1 2 eq_refl).
Defined.

(** X15. In [renderItemToPng] the flip is never what fails: when the drawing
    collaborator returns, the pixels are flipped into a buffer of
    [size * size * 4] bytes and the result is whatever the encoder gives on
    it; when the collaborator throws, that exception is the result. *)
Theorem renderItemToPng_flip_total (env : Env) (id : string) (size : nat) :
  match drawItem env id size with
  | Throw e => renderItemToPng env id size = Throw e
  | Ok raw =>
      exists flipped,
        flipYAxis (resize (size * size * 4) x00 raw) size size = Ok flipped
        /\ length flipped = (size * size * 4)%nat
        /\ renderItemToPng env id size = encodePng env size flipped
  end.
Proof.
  unfold renderItemToPng. destruct (drawItem env id size) as [raw|e]; [|done].
  simpl.
  destruct (flipYAxis_with_tail (resize (size * size * 4) x00 raw) [] size size)
    as (flipped & Hflip & Hlen & _); [apply length_resize|].
  exists flipped. split; [done|]. split.
  - by rewrite Hlen, length_resize.
  - by rewrite Hflip.
Qed.

(** ** The override merger *)

Section Merger.

Variable env : Env.

Let copyEntry (entry : Dirent) : M unit :=
  if isFile entry && Js.endsWith ".png" (Js.toLowerCase (name entry)) then
    let dest := pathJoin (outputDir env) (name entry) in
    _ ← writeFile env dest (contents entry);
    consoleLog (Hardcoded dest)
  else mret ().

(** The copy loop, whether it completes or stops at a failing copy, leaves
    the files and the console as the copies carried out make them. *)
Lemma merge_loop (entries : list Dirent) :
  forall w,
    exists r,
      forEach copyEntry entries w
      = (r, {| files := writeAll (copiesDone env entries) (files w);
               console := console w ++ map (fun pc => Hardcoded pc.1)
                                           (copiesDone env entries) |}).
Proof.
  induction entries as [|entry entries IH]; intros w.
  - exists (Ok ()). simpl. rewrite app_nil_r. by destruct w.
  - cbn [forEach copiesDone]. unfold mbind at 1, M_bind at 1.
    unfold copyEntry at 1. fold (isPngFile entry).
    destruct (isPngFile entry).
    + unfold mbind, M_bind, writeFile.
      destruct (writeFails env (pathJoin (outputDir env) (name entry))).
      * exists (Throw (EIO (pathJoin (outputDir env) (name entry)))).
        simpl. rewrite app_nil_r. by destruct w.
      * cbn [consoleLog files console].
        destruct (IH {| files := <[pathJoin (outputDir env) (name entry) := contents entry]>
                                   (files w);
                        console := console w
                                     ++ [Hardcoded (pathJoin (outputDir env) (name entry))] |})
          as [r Hr].
        exists r. unfold mbind, M_bind in Hr. rewrite Hr. simpl.
        by rewrite <- app_assoc.
    + destruct (IH w) as [r Hr]. exists r. exact Hr.
Qed.

Lemma mergeHardcodedIcons_run (entries : list Dirent) (w : World) :
  mergeHardcodedIcons env (Some entries) w
  = (Ok (), {| files := writeAll (copiesDone env entries) (files w);
               console := console w ++ map (fun pc => Hardcoded pc.1)
                                           (copiesDone env entries) |}).
Proof.
  unfold mergeHardcodedIcons, tryCatch, mbind at 1, M_bind at 1, readdir.
  destruct (merge_loop entries w) as [r Hr]. unfold copyEntry in Hr.
  rewrite Hr. by destruct r as [[]|e].
Qed.

Lemma copiesDone_failed_copy (before after : list Dirent) (entry : Dirent) :
  isPngFile entry = true ->
  writeFails env (pathJoin (outputDir env) (name entry)) = true ->
  copiesDone env (before ++ entry :: after) = copiesDone env before.
Proof.
  intros Hpng Hfail. induction before as [|b before IH]; simpl.
  - by rewrite Hpng, Hfail.
  - destruct (isPngFile b); [|done].
    destruct (writeFails env (pathJoin (outputDir env) (name b))); [done|]. by rewrite IH.
Qed.

Lemma copiesDone_filter (entries : list Dirent) :
  copiesDone env (List.filter isPngFile entries) = copiesDone env entries.
Proof.
  induction entries as [|entry entries IH]; simpl; [done|].
  destruct (isPngFile entry) eqn:Hpng; simpl; [|done].
  rewrite Hpng. by rewrite IH.
Qed.

Lemma copiesDone_no_failure (entries : list Dirent) :
  (forall entry, entry ∈ entries ->
                 writeFails env (pathJoin (outputDir env) (name entry)) = false) ->
  copiesDone env entries
  = map (fun entry => (pathJoin (outputDir env) (name entry), contents entry))
        (List.filter isPngFile entries).
Proof.
  induction entries as [|entry entries IH]; intros Hok; simpl; [done|].
  destruct (isPngFile entry); simpl.
  - rewrite (Hok entry) by apply list_elem_of_here.
    rewrite IH; [done|]. intros e He. apply Hok. by apply list_elem_of_further.
  - apply IH. intros e He. apply Hok. by apply list_elem_of_further.
Qed.

Lemma writeAll_lookup (copies : list (string * list byte)) (path : string) :
  forall fs : gmap string (list byte),
    writeAll copies fs !! path
    = match mapGet path (reverse copies) with
      | Some bytes => Some bytes
      | None => fs !! path
      end.
Proof.
  unfold writeAll. induction copies as [|[p c] copies IH]; intros fs; simpl; [done|].
  rewrite IH, reverse_cons, mapGet_app. simpl.
  destruct (mapGet path (reverse copies)); [done|].
  destruct (decide (path = p)) as [->|Hne].
  - apply lookup_insert_eq.
  - by apply lookup_insert_ne.
Qed.

End Merger.

Lemma pathJoin_inj (dir file1 file2 : string) :
  pathJoin dir file1 = pathJoin dir file2 -> file1 = file2.
Proof.
  unfold pathJoin. intros Heq.
  assert (Htail : "/" +:+ file1 = "/" +:+ file2).
  { by rewrite <- (slice_append dir ("/" +:+ file1)), <- (slice_append dir ("/" +:+ file2)), Heq. }
  by injection Htail.
Qed.

(** X16. The merger never throws, whatever the directory holds and whichever
    copies fail; when the directory does not exist it changes nothing and
    prints nothing. *)
Theorem mergeHardcodedIcons_never_throws (env : Env) (sourceDir : option (list Dirent))
    (w : World) :
  (exists w', mergeHardcodedIcons env sourceDir w = (Ok (), w'))
  /\ mergeHardcodedIcons env None w = (Ok (), w).
Proof.
  split; [|done]. destruct sourceDir as [entries|].
  - eexists. apply mergeHardcodedIcons_run.
  - by exists w.
Qed.

(** X17. Only regular files whose lower-cased name ends in [.png] matter to
    the merger: directories and other files can be dropped from the listing
    without changing the outcome, and a path that is not the destination of
    such a file keeps what it had. *)
Theorem mergeHardcodedIcons_only_png_files (env : Env) (entries : list Dirent) (w : World) :
  mergeHardcodedIcons env (Some entries) w
  = mergeHardcodedIcons env (Some (List.filter isPngFile entries)) w
  /\ forall path,
       (forall entry, entry ∈ entries -> isPngFile entry = true ->
                      path <> pathJoin (outputDir env) (name entry)) ->
       files (mergeHardcodedIcons env (Some entries) w).2 !! path = files w !! path.
Proof.
  split.
  - by rewrite !mergeHardcodedIcons_run, copiesDone_filter.
  - intros path Hother. rewrite mergeHardcodedIcons_run. simpl.
    rewrite writeAll_lookup.
    replace (mapGet path (reverse (copiesDone env entries))) with (@None (list byte)); [done|].
    symmetry. apply mapGet_None. rewrite <- reverse_map, elem_of_reverse.
    clear w. induction entries as [|entry entries IH]; simpl.
    + apply not_elem_of_nil.
    + assert (IH' : path ∉ map fst (copiesDone env entries)).
      { apply IH. intros e He. apply Hother. by apply list_elem_of_further. }
      destruct (isPngFile entry) eqn:Hpng; [|done].
      destruct (writeFails env (pathJoin (outputDir env) (name entry))).
      * apply not_elem_of_nil.
      * simpl. apply not_elem_of_cons. split; [|done].
        apply Hother; [apply list_elem_of_here | done].
Qed.

(** X18. A copy that fails ends the merge silently: the failing file and
    everything listed after it are left out, as if the listing had stopped
    just before it. *)
Theorem mergeHardcodedIcons_failed_copy (env : Env) (before after : list Dirent)
    (entry : Dirent) (w : World) :
  isPngFile entry = true ->
  writeFails env (pathJoin (outputDir env) (name entry)) = true ->
  mergeHardcodedIcons env (Some (before ++ entry :: after)) w
  = mergeHardcodedIcons env (Some before) w.
Proof.
  intros Hpng Hfail. by rewrite !mergeHardcodedIcons_run, copiesDone_failed_copy.
Qed.

Lemma mergeHardcodedIcons_failed_copy_sample :
  let env := {| itemModels := ∅;
                drawItem := fun _ _ => Ok [];
                encodePng := fun _ pixels => Ok pixels;
                writeFails := fun path => String.eqb path "output/player_head.png";
                outputDir := "output" |} in
  let head := {| name := "player_head.png"; isFile := true; contents := [x01] |} in
  let golem := {| name := "copper_golem_statue.PNG"; isFile := true; contents := [x02] |} in
  mergeHardcodedIcons env (Some ([golem] ++ head :: [golem; head]))
    {| files := ∅; console := [] |}
  = mergeHardcodedIcons env (Some [golem]) {| files := ∅; console := [] |}.
Proof.
  intros env head golem.
  apply (mergeHardcodedIcons_failed_copy env [golem] [golem; head] head); reflexivity.
Defined.

(** X19. When no copy fails and the listed names are distinct, every listed
    [.png] file ends up in the output directory under its own name with its
    own contents, whether or not a file of that name was there before. *)
Theorem mergeHardcodedIcons_overwrites (env : Env) (entries : list Dirent) (w : World)
    (entry : Dirent) :
  NoDup (map name entries) ->
  (forall e, e ∈ entries -> writeFails env (pathJoin (outputDir env) (name e)) = false) ->
  entry ∈ entries ->
  isPngFile entry = true ->
  files (mergeHardcodedIcons env (Some entries) w).2
    !! pathJoin (outputDir env) (name entry)
  = Some (contents entry).
Proof.
  intros Hnames Hok Hin Hpng. rewrite mergeHardcodedIcons_run. simpl.
  rewrite writeAll_lookup, copiesDone_no_failure by done.
  assert (Hnd : NoDup (map fst (map (fun e => (pathJoin (outputDir env) (name e), contents e))
                                    (List.filter isPngFile entries)))).
  { rewrite map_map. simpl. clear Hin Hpng Hok.
    induction entries as [|e entries IH]; simpl; [apply NoDup_nil_2|].
    apply list.NoDup_cons in Hnames as [He Hnames].
    destruct (isPngFile e); [|by apply IH]. simpl. apply list.NoDup_cons.
    split; [|by apply IH]. intros Hdup. apply He.
    apply list_elem_of_In, in_map_iff in Hdup as (e' & Heq & He').
    apply pathJoin_inj in Heq. apply filter_In in He' as [He' _].
    apply list_elem_of_In, in_map_iff. by exists e'. }
  rewrite mapGet_reverse_NoDup by done.
  rewrite (mapGet_NoDup_elem _ (contents entry)); [done|done|].
  apply list_elem_of_In, in_map_iff. exists entry. split; [done|].
  apply filter_In. split; [by apply list_elem_of_In | done].
Qed.

Lemma mergeHardcodedIcons_overwrites_sample :
  let env := {| itemModels := ∅;
                drawItem := fun _ _ => Ok [];
                encodePng := fun _ pixels => Ok pixels;
                writeFails := fun _ => false;
                outputDir := "output" |} in
  let head := {| name := "player_head.png"; isFile := true; contents := [x01; x02] |} in
  let notes := {| name := "README.md"; isFile := true; contents := [x03] |} in
  files (mergeHardcodedIcons env (Some [notes; head])
           {| files := <["output/player_head.png" := [xff]]> ∅; console := [] |}).2
    !! "output/player_head.png"
  = Some [x01; x02].
Proof.
  intros env head notes.
  apply (mergeHardcodedIcons_overwrites env [notes; head] _ head).
  - apply (bool_decide_unpack _). vm_compute. exact I.
  - reflexivity.
  - apply list_elem_of_further, list_elem_of_here.
  - reflexivity.
Defined.

(** ** Running the loop again *)

Lemma string_length_append (a b : string) :
  String.length (a +:+ b) = (String.length a + String.length b)%nat.
Proof.
  induction a as [|c a IH]; [done|].
  change (S (String.length (a +:+ b)) = S (String.length a + String.length b)).
  by rewrite IH.
Qed.

Lemma string_append_cancel_r (a b s : string) : a +:+ s = b +:+ s -> a = b.
Proof.
  revert b. induction a as [|c a IH]; intros [|d b] Heq; [done| | |].
  - apply (f_equal String.length) in Heq. rewrite !string_length_append in Heq.
    simpl in Heq. lia.
  - apply (f_equal String.length) in Heq. rewrite !string_length_append in Heq.
    simpl in Heq. lia.
  - change (String c (a +:+ s) = String d (b +:+ s)) in Heq.
    injection Heq as -> Heq. f_equal. by apply IH.
Qed.


Section Rerun.

Variables (env : Env) (twoD : JsSet.t).

Implicit Types (fs : gmap string (list byte)) (ids : list string).

Lemma render_loop_files ids :
  forall w,
    exists lines,
      forEach (renderCandidate env twoD) ids w
      = (Ok (), {| files := batchFiles env twoD (files w) ids;
                   console := console w ++ lines |})
      /\ map outcomeOf lines = map Some (batchOutcomes env twoD (files w) ids).
Proof.
  induction ids as [|id ids IH]; intros w.
  - exists []. rewrite app_nil_r. by destruct w.
  - destruct (renderCandidate_outcome env twoD id w) as (line & Hstep & Hline).
    destruct (IH {| files := (candidateOutcome env twoD (files w) id).2;
                    console := console w ++ [line] |}) as (lines & Hrest & Hlines).
    exists (line :: lines). split.
    + simpl. unfold mbind, M_bind. rewrite Hstep, Hrest. simpl. by rewrite <- app_assoc.
    + simpl. by rewrite Hline, Hlines.
Qed.

Lemma batchFiles_subseteq ids : forall fs, fs ⊆ batchFiles env twoD fs ids.
Proof.
  induction ids as [|id ids IH]; intros fs; simpl; [done|].
  etrans; [apply candidateOutcome_subseteq | apply IH].
Qed.

(** A candidate whose turn is over stays settled on any later state of the
    directory: nothing is written for it again. *)
Lemma candidateOutcome_settled fs0 fs2 id :
  dom (candidateOutcome env twoD fs0 id).2 ⊆ dom fs2 ->
  (candidateOutcome env twoD fs2 id).2 = fs2.
Proof.
  unfold candidateOutcome. intros Hdom.
  destruct (getItemModel env id); [|done].
  destruct (fs2 !! outputPath env id) eqn:Hf2; [done|].
  destruct (renderItemToPng env id (renderSize twoD id)); [|done].
  destruct (writeFails env (outputPath env id)); [done|].
  exfalso. apply not_elem_of_dom in Hf2. apply Hf2, Hdom.
  destruct (fs0 !! outputPath env id) eqn:Hf0; simpl.
  - apply elem_of_dom. by eexists.
  - apply elem_of_dom. rewrite lookup_insert_eq. by eexists.
Qed.

Lemma batchFiles_settled ids :
  forall fs0 fs2,
    dom (batchFiles env twoD fs0 ids) ⊆ dom fs2 ->
    batchFiles env twoD fs2 ids = fs2.
Proof.
  induction ids as [|id ids IH]; intros fs0 fs2 Hdom; simpl in *; [done|].
  rewrite (candidateOutcome_settled fs0 fs2 id).
  - by apply (IH (candidateOutcome env twoD fs0 id).2).
  - etrans; [|exact Hdom]. apply subseteq_dom, batchFiles_subseteq.
Qed.



End Rerun.


Section MainRun.

Variables (env : Env) (textures ids : list string).

Let twoD : JsSet.t := twoDItemIds (fetchTwoDItemIds textures).

Lemma main_run (sourceDir : option (list Dirent)) (w : World) :
  exists lines,
    main env textures ids sourceDir w
    = (Ok (),
       {| files := writeAll (copiesDone env (default [] sourceDir))
                            (batchFiles env twoD (files w) ids);
          console := (console w ++ lines)
                       ++ map (fun pc => Hardcoded pc.1)
                              (copiesDone env (default [] sourceDir)) |})
    /\ map outcomeOf lines = map Some (batchOutcomes env twoD (files w) ids).
Proof.
  destruct (render_loop_files env twoD ids w) as (lines & Hrun & Hlines).
  exists lines. split; [|done].
  unfold main. fold twoD. unfold mbind, M_bind. rewrite Hrun.
  destruct sourceDir as [entries|]; simpl.
  - by rewrite mergeHardcodedIcons_run.
  - by rewrite app_nil_r.
Qed.

Lemma writeAll_dom (copies : list (string * list byte)) :
  forall fs : gmap string (list byte), dom fs ⊆ dom (writeAll copies fs).
Proof.
  unfold writeAll. induction copies as [|[p c] copies IH]; intros fs; simpl; [done|].
  etrans; [|apply IH]. rewrite dom_insert. set_solver.
Qed.

Lemma writeAll_twice (copies : list (string * list byte)) (fs : gmap string (list byte)) :
  writeAll copies (writeAll copies fs) = writeAll copies fs.
Proof.
  apply map_eq. intros path. rewrite !writeAll_lookup.
  by destruct (mapGet path (reverse copies)).
Qed.

End MainRun.

(** X21. Once the startup data is there, [main] returns normally whatever
    happens to single items or to the merge: it prints one outcome line per
    registry id, in registry order, and only then the lines of the merged
    files. *)
Theorem main_never_throws (env : Env) (textures ids : list string)
    (sourceDir : option (list Dirent)) (w : World) :
  exists w' lines merged,
    main env textures ids sourceDir w = (Ok (), w')
    /\ console w' = console w ++ lines ++ merged
    /\ map outcomeOf lines
       = map Some (batchOutcomes env (twoDItemIds (fetchTwoDItemIds textures)) (files w) ids)
    /\ map fst (batchOutcomes env (twoDItemIds (fetchTwoDItemIds textures)) (files w) ids)
       = ids
    /\ Forall (fun line => outcomeOf line = None) merged.
Proof.
  destruct (main_run env textures ids sourceDir w) as (lines & Hrun & Hlines).
  eexists _, lines, _. split; [exact Hrun|]. split; [by rewrite <- app_assoc|].
  split; [exact Hlines|]. split; [apply batchOutcomes_ids|].
  clear. induction (copiesDone env (default [] sourceDir)) as [|pc copies IH];
    simpl; by constructor.
Qed.

(** X22. A second run of [main] with the same inputs leaves the output
    directory exactly as the first run left it. *)
Theorem main_second_run_files (env : Env) (textures ids : list string)
    (sourceDir : option (list Dirent)) (w : World) :
  files (main env textures ids sourceDir (main env textures ids sourceDir w).2).2
  = files (main env textures ids sourceDir w).2.
Proof.
  destruct (main_run env textures ids sourceDir w) as (lines1 & Hrun1 & _).
  rewrite Hrun1. cbn [snd].
  match goal with
  | |- files (main _ _ _ _ ?w1).2 = _ =>
      destruct (main_run env textures ids sourceDir w1) as (lines2 & Hrun2 & _);
      rewrite Hrun2
  end.
  cbn [snd files].
  rewrite (batchFiles_settled env _ ids (files w)); [apply writeAll_twice|].
  apply writeAll_dom.
Qed.

Lemma mergeHardcodedIcons_only_png_files_sample :
  let env := {| itemModels := ∅;
                drawItem := fun _ _ => Ok [];
                encodePng := fun _ pixels => Ok pixels;
                writeFails := fun _ => false;
                outputDir := "output" |} in
  let entries := [{| name := "old.png"; isFile := false; contents := [] |};
                  {| name := "notes.txt"; isFile := true; contents := [x01] |};
                  {| name := "Player_Head.PNG"; isFile := true; contents := [x02] |}] in
  let w := {| files := <["output/notes.txt" := [xff]]> ∅; console := [] |} in
  mergeHardcodedIcons env (Some entries) w
  = mergeHardcodedIcons env
      (Some [{| name := "Player_Head.PNG"; isFile := true; contents := [x02] |}]) w
  /\ files (mergeHardcodedIcons env (Some entries) w).2 !! "output/notes.txt" = Some [xff].
Proof.
  intros env entries w.
  destruct (mergeHardcodedIcons_only_png_files env entries w) as [Hfilter Hframe].
  split; [exact Hfilter|].
  rewrite (Hframe "output/notes.txt"); [apply lookup_insert_eq|].
  intros entry Hin Hpng.
  repeat (apply elem_of_cons in Hin as [->|Hin]); try discriminate.
  by apply elem_of_nil in Hin.
Defined.

(** ** Suffix rule *)

(** X23. The suffix rule gives one id per base, and distinct bases give
    distinct ids. *)
Theorem SuffixRule_generate_distinct (bases : list string) (sfx : string) :
  NoDup bases ->
  NoDup (ruleGenerate (mkRule {| suffix_bases := bases; suffix := sfx |}))
  /\ length (ruleGenerate (mkRule {| suffix_bases := bases; suffix := sfx |}))
     = length bases.
Proof.
  intros Hnd. unfold ruleGenerate, generate, SuffixRule_generate. simpl. split; [|apply length_map].
  induction Hnd as [|base bases Hbase _ IH]; simpl; [apply NoDup_nil_2|].
  apply list.NoDup_cons. split; [|exact IH].
  intros Hin. apply Hbase.
  apply list_elem_of_In, in_map_iff in Hin as (other & Heq & Hother).
  apply string_append_cancel_r in Heq. subst other. by apply list_elem_of_In.
Qed.

Lemma SuffixRule_generate_distinct_saplings :
  NoDup (ruleGenerate (mkRule {| suffix_bases := SAPLING_TYPES; suffix := "sapling" |}))
  /\ length (ruleGenerate (mkRule {| suffix_bases := SAPLING_TYPES; suffix := "sapling" |}))
     = length SAPLING_TYPES.
Proof.
  apply SuffixRule_generate_distinct.
  apply (bool_decide_unpack _). vm_compute. exact I.
Defined.

(** ** From the texture registry to the render size *)

(** X24. An id is rendered at 16 pixels exactly when the texture registry
    lists [item/] followed by that (non-empty) id or one of the hardcoded
    rules generates it; every other id is rendered at 128. *)
Theorem renderSize_from_registry (textures : list string) (id : string) :
  let twoD := twoDItemIds (fetchTwoDItemIds textures) in
  (renderSize twoD id = 16%nat <->
     (id <> "" /\ "item/" +:+ id ∈ textures)
     \/ exists rule, rule ∈ hardcodedRules /\ id ∈ ruleGenerate rule)
  /\ (renderSize twoD id = 16%nat \/ renderSize twoD id = 128%nat).
Proof.
  intros twoD.
  assert (Hmem : id ∈ twoD <->
            (id <> "" /\ "item/" +:+ id ∈ textures)
            \/ exists rule, rule ∈ hardcodedRules /\ id ∈ ruleGenerate rule).
  { unfold twoD. rewrite elem_of_twoDItemIds, elem_of_getHardcodedTwoDItemIds.
    unfold fetchTwoDItemIds. rewrite elem_of_detect_fold. unfold JsSet.empty.
    split; [intros [[H|H]|H]; [by apply elem_of_nil in H | by left | by right]
           | intros [H|H]; [left; by right | by right]]. }
  unfold renderSize, JsSet.has. destruct (bool_decide_reflect (id ∈ twoD)) as [Hin|Hout].
  - split; [|by left]. split; [intros _; by apply Hmem | done].
  - split; [|by right]. split; [discriminate | intros H; by apply Hmem in H].
Qed.
